(** * Sling: an HTTP request builder and sender (Go), embedded in Rocq

    The development follows the layout of the Go package:
    - [sling.go]    the builder ([Sling]), the request construction
                    ([requestWithContext], [addQueryStructs]) and the
                    dispatcher ([do], [doDecode], [decodeResponse],
                    [readWithCap]);
    - [tracer.go]   the traced response body ([bodyWithTracer]).

    Go values that are shared by reference and mutated in place (the
    backing arrays of slices) live in an explicit store; everything else
    is passed by value.  The functions of Go's standard library that the
    package calls are either modelled next to their callers (append,
    net/textproto's key canonicalisation, url.Values, io.ReadFull) or,
    when they are large and only their result matters (url.Parse,
    http.NewRequestWithContext, go-querystring, encoding/json), taken as
    members of the class [NetLib]. *)

From Stdlib Require Import ZArith String Ascii List Lia Bool Permutation.
From Stdlib Require Import DecimalString.
From stdpp Require Import gmap strings list fin_maps sorting.

Open Scope string_scope.
Open Scope list_scope.
Open Scope nat_scope.

(* ===================================================================== *)
(** * Part I: the model                                                   *)
(* ===================================================================== *)

(** ** Errors *)

(** Go's [error] values.  The two sentinels the package compares against
    by identity ([context.Canceled], [io.EOF]) and the one [io.ReadFull]
    produces are constructors of their own; [errorString] is the result
    of [fmt.Errorf] without [%w] (or of [errors.New]); [wrapError] is
    [fmt.Errorf] whose format ends in [%w]: it keeps the formatted prefix
    and the wrapped error. A nil error is [None]. *)
Inductive error : Type :=
  | context_Canceled
  | io_EOF
  | io_ErrUnexpectedEOF
  | errorString (msg : string)
  | wrapError (prefix : string) (err : error).

Global Instance error_eq_dec : EqDecision error.
Proof. solve_decision. Defined.

(** [err.Error()] *)
Fixpoint Error (e : error) : string :=
  match e with
  | context_Canceled => "context canceled"
  | io_EOF => "EOF"
  | io_ErrUnexpectedEOF => "unexpected EOF"
  | errorString msg => msg
  | wrapError prefix err => prefix +:+ Error err
  end.

(** [errors.Is(err, target)] for the comparable errors used here: walks
    the chain of wrapped errors. *)
Fixpoint errors_Is (e target : error) : bool :=
  bool_decide (e = target) ||
  match e with
  | wrapError _ err => errors_Is err target
  | _ => false
  end.

(** The verb [%d] of [fmt] on an [int]. *)
Definition fmt_d (n : Z) : string := NilZero.string_of_int (Z.to_int n).

(** A Go call either returns or panics. *)
Inductive result (A : Type) : Type :=
  | Ret (a : A)
  | Panic (msg : string).
Arguments Ret {A} a.
Arguments Panic {A} msg.

Definition nil_dereference : string :=
  "runtime error: invalid memory address or nil pointer dereference".

(** ** Slices and their backing arrays *)

(** A slice header: the backing array (an index into the store), the
    length and the capacity.  No slice of this package is re-sliced, so
    the offset into the array is always 0. *)
Record slice : Type := mkSlice { s_arr : nat; s_len : nat; s_cap : nat }.

(** The nil slice (and any zero-capacity slice): it owns no array cell,
    [s_arr] is never read or written through it. *)
Definition nil_slice : slice := mkSlice 0 0 0.

(** [runtime.nextslicecap]: the capacity [append] asks for when the
    backing array is full. The loop of the 1.25x regime is unrolled with
    fuel [newLen] (every round adds at least 192). The allocator's
    rounding of the request to a size class is not modelled: for
    the 16-byte elements of this package (strings, interfaces) the
    capacities 1, 2, 4 and 8 are size classes themselves. *)
Fixpoint nextslicecap_loop (fuel newcap newLen : nat) : nat :=
  match fuel with
  | O => newLen
  | S fuel' =>
      let newcap' := newcap + (newcap + 3 * 256) / 4 in
      if newLen <=? newcap' then newcap' else nextslicecap_loop fuel' newcap' newLen
  end.

Definition nextslicecap (newLen oldCap : nat) : nat :=
  let doublecap := oldCap + oldCap in
  if doublecap <? newLen then newLen
  else if oldCap <? 256 then doublecap
  else nextslicecap_loop newLen oldCap newLen.

Section GoSlice.
Context {A : Type} (zero : A).

(** The store of backing arrays of element type [A]: array [i] is the
    [i]-th list, its length is its capacity. *)
Definition array_of (st : list (list A)) (i : nat) : list A :=
  default [] (st !! i).

(** The elements a slice shows: [s[0:len(s)]]. *)
Definition elems (st : list (list A)) (s : slice) : list A :=
  take (s_len s) (array_of st (s_arr s)).

(** Writes [vs] into array [a] from index [i] on. *)
Fixpoint write_from (a : list A) (i : nat) (vs : list A) : list A :=
  match vs with
  | [] => a
  | v :: vs' => write_from (<[i := v]> a) (S i) vs'
  end.

(** [append(s, vs...)]: in place when the capacity suffices, otherwise
    into a fresh array of capacity [nextslicecap] that receives a copy
    of the old elements. Appending nothing returns [s] itself. *)
Definition append (st : list (list A)) (s : slice) (vs : list A)
  : slice * list (list A) :=
  let newLen := s_len s + length vs in
  if newLen <=? s_cap s then
    match vs with
    | [] => (s, st)
    | _ => (mkSlice (s_arr s) newLen (s_cap s),
            <[s_arr s := write_from (array_of st (s_arr s)) (s_len s) vs]> st)
    end
  else
    let newcap := nextslicecap newLen (s_cap s) in
    (mkSlice (length st) newLen newcap,
     st ++ [elems st s ++ vs ++ replicate (newcap - newLen) zero]).

(** A composite literal [[]T{v1, ..., vn}]: a fresh array of exactly
    the elements. *)
Definition slice_literal (st : list (list A)) (vs : list A)
  : slice * list (list A) :=
  match vs with
  | [] => (nil_slice, st)
  | _ => (mkSlice (length st) (length vs) (length vs), st ++ [vs])
  end.
End GoSlice.

(** ** net/textproto: canonical header keys *)

Definition byte_in (lo hi : string) (c : ascii) : bool :=
  match lo, hi with
  | String l _, String h _ => (nat_of_ascii l <=? nat_of_ascii c) && (nat_of_ascii c <=? nat_of_ascii h)
  | _, _ => false
  end.

Fixpoint string_mem (c : ascii) (s : string) : bool :=
  match s with
  | EmptyString => false
  | String d s' => Ascii.eqb c d || string_mem c s'
  end.

(** [validHeaderFieldByte]: the token characters of RFC 7230. *)
Definition validHeaderFieldByte (c : ascii) : bool :=
  byte_in "a" "z" c || byte_in "A" "Z" c || byte_in "0" "9" c ||
  string_mem c "!#$%&'*+-.^_`|~".

Fixpoint string_forallb (p : ascii -> bool) (s : string) : bool :=
  match s with
  | EmptyString => true
  | String c s' => p c && string_forallb p s'
  end.

Definition toLower : nat := 32.

(** The case mapping of [canonicalMIMEHeaderKey]: the first letter and
    every letter after a hyphen in upper case, the others in lower
    case. *)
Fixpoint canonical_case (upper : bool) (s : string) : string :=
  match s with
  | EmptyString => EmptyString
  | String c s' =>
      let c' :=
        if upper && byte_in "a" "z" c then ascii_of_nat (nat_of_ascii c - toLower)
        else if negb upper && byte_in "A" "Z" c then ascii_of_nat (nat_of_ascii c + toLower)
        else c in
      String c' (canonical_case (Ascii.eqb c' "-"%char) s')
  end.

(** [textproto.CanonicalMIMEHeaderKey] (= [http.CanonicalHeaderKey]): a
    key with a byte that is not a token character is returned as it
    is. *)
Definition CanonicalMIMEHeaderKey (s : string) : string :=
  if string_forallb validHeaderFieldByte s then canonical_case true s else s.

(** ** http.Header *)

(** [http.Header] is [map[string][]string]: the values of a key are a
    slice, whose backing array lives in the store of string arrays. *)
Abbreviation Header := (gmap string slice).

(** [h.Add(key, value)]: [h[key] = append(h[key], value)] on the
    canonical key. A missing key reads as the nil slice. *)
Definition Header_Add (key value : string) (h : Header) (st : list (list string))
  : Header * list (list string) :=
  let k := CanonicalMIMEHeaderKey key in
  let '(vs, st') := append "" st (default nil_slice (h !! k)) [value] in
  (<[k := vs]> h, st').

(** [h.Set(key, value)]: [h[key] = []string{value}] on the canonical
    key. *)
Definition Header_Set (key value : string) (h : Header) (st : list (list string))
  : Header * list (list string) :=
  let k := CanonicalMIMEHeaderKey key in
  let '(vs, st') := slice_literal st [value] in
  (<[k := vs]> h, st').

(** The values of a header map as the program sees them. *)
Definition header_values (st : list (list string)) (h : Header)
  : gmap string (list string) :=
  elems st <$> h.

(** ** net/url: query values *)

(** [url.Values] is [map[string][]string]. The value slices of a
    [Values] built by [ParseQuery] and [Add] are owned by that map alone,
    so they are modelled by value. *)
Abbreviation Values := (gmap string (list string)).

(** [v.Add(key, value)]: [v[key] = append(v[key], value)]. *)
Definition Values_Add (key value : string) (v : Values) : Values :=
  <[key := default [] (v !! key) ++ [value]]> v.

(** [shouldEscape(c, encodeQueryComponent)]: everything but the
    unreserved characters of RFC 3986 is escaped. *)
Definition shouldEscape (c : ascii) : bool :=
  negb (byte_in "a" "z" c || byte_in "A" "Z" c || byte_in "0" "9" c ||
        string_mem c "-_.~").

Definition upperhex (n : nat) : ascii :=
  nth n (list_ascii_of_string "0123456789ABCDEF") "0"%char.

(** [url.QueryEscape] *)
Fixpoint QueryEscape (s : string) : string :=
  match s with
  | EmptyString => EmptyString
  | String c s' =>
      if Ascii.eqb c " "%char then String "+"%char (QueryEscape s')
      else if shouldEscape c then
        String "%"%char (String (upperhex (nat_of_ascii c / 16))
                        (String (upperhex (nat_of_ascii c mod 16)) (QueryEscape s')))
      else String c (QueryEscape s')
  end.

Definition ishex (c : ascii) : bool :=
  byte_in "0" "9" c || byte_in "a" "f" c || byte_in "A" "F" c.

Definition unhex (c : ascii) : nat :=
  if byte_in "0" "9" c then nat_of_ascii c - 48
  else if byte_in "a" "f" c then nat_of_ascii c - 97 + 10
  else if byte_in "A" "F" c then nat_of_ascii c - 65 + 10
  else 0.

(** [strconv.Quote] on printable text without quotes or backslashes. *)
Definition strconv_Quote (s : string) : string :=
  String (ascii_of_nat 34) (s +:+ String (ascii_of_nat 34) EmptyString).

(** [url.EscapeError(s)] *)
Definition EscapeError (s : string) : error :=
  errorString ("invalid URL escape " +:+ strconv_Quote s).

(** [url.QueryUnescape]: [%XX] to the byte, [+] to a space; the first
    malformed [%] is an [EscapeError] of at most three bytes. *)
Fixpoint QueryUnescape (s : string) : string + error :=
  match s with
  | EmptyString => inl EmptyString
  | String c s' =>
      if Ascii.eqb c "%"%char then
        match s' with
        | String a (String b s'') =>
            if ishex a && ishex b then
              match QueryUnescape s'' with
              | inl t => inl (String (ascii_of_nat (unhex a * 16 + unhex b)) t)
              | inr e => inr e
              end
            else inr (EscapeError (String c (String a (String b EmptyString))))
        | _ => inr (EscapeError s)
        end
      else
        match QueryUnescape s' with
        | inl t => inl (String (if Ascii.eqb c "+"%char then " "%char else c) t)
        | inr e => inr e
        end
  end.

(** [strings.Cut(s, sep)] for a one-byte separator, without the flag. *)
Fixpoint strings_Cut (sep : ascii) (s : string) : string * string :=
  match s with
  | EmptyString => (EmptyString, EmptyString)
  | String c s' =>
      if Ascii.eqb c sep then (EmptyString, s')
      else let '(before, after) := strings_Cut sep s' in (String c before, after)
  end.

(** The segments [ParseQuery]'s loop cuts off its query one by one:
    [key, query, _ = strings.Cut(query, "&")] until [query] is empty. *)
Fixpoint query_segments (query : string) (cur : string) : list string :=
  match query with
  | EmptyString => [String.rev cur]
  | String c q' =>
      if Ascii.eqb c "&"%char then String.rev cur :: query_segments q' EmptyString
      else query_segments q' (String c cur)
  end.

(** One round of the loop of [url.parseQuery]: the map and the error so
    far, and the segment cut off. *)
Definition parseQuery_step (acc : Values * option error) (key : string)
  : Values * option error :=
  let '(m, err) := acc in
  if string_mem ";"%char key then
    (m, Some (errorString "invalid semicolon separator in query"))
  else if String.eqb key EmptyString then (m, err)
  else
    let '(k, value) := strings_Cut "="%char key in
    match QueryUnescape k with
    | inr err1 => (m, Some (default err1 err))
    | inl k' =>
        match QueryUnescape value with
        | inr err1 => (m, Some (default err1 err))
        | inl value' => (Values_Add k' value' m, err)
        end
    end.

(** [url.ParseQuery]: the values parsed, and the first error if any. *)
Definition ParseQuery (query : string) : Values * option error :=
  foldl parseQuery_step (∅, None) (query_segments query EmptyString).

(** The key/value pairs of a [Values] in the order [Encode] writes them:
    keys sorted ([slices.Sorted(maps.Keys(v))], byte-wise), the values
    of a key in their order. *)
Definition sorted_keys (v : Values) : list string :=
  merge_sort String.le (map_to_list v).*1.

Definition Values_pairs (v : Values) : list (string * string) :=
  k ← sorted_keys v; (λ x, (k, x)) <$> v !!! k.

(** What [Encode] writes for one pair: an ampersand if the buffer is not
    empty, then [key=value] escaped. *)
Definition Encode_write (buf : string) (kv : string * string) : string :=
  (if String.eqb buf EmptyString then buf else buf +:+ "&")
    +:+ QueryEscape kv.1 +:+ "=" +:+ QueryEscape kv.2.

(** [v.Encode()] *)
Definition Values_Encode (v : Values) : string :=
  foldl Encode_write EmptyString (Values_pairs v).



(** ** Values of interface type *)

(** [x == nil] *)
Definition is_nil {A : Type} (x : option A) : bool :=
  match x with
  | None => true
  | Some _ => false
  end.

(** An [interface{}] the caller hands to the builder: a [url.Values], or
    a pointer to a value of the caller's, known by its address only. A
    nil interface is [None]. *)
Inductive any : Type :=
  | AnyValues (v : Values)
  | AnyPtr (addr : nat).

(** ** io: readers *)

(** A stream ([io.Reader], [io.ReadCloser]): the bytes it still holds,
    the sizes of the portions its next calls of [Read] hand out (a
    portion [c] stands for [c + 1] bytes; when the list is used up a
    [Read] gives all it can), and the error it reports once the bytes
    are used up, [io.EOF] for a stream that ends well. *)
Record io_Reader : Type := mkReader {
  pending : string;
  portions : list nat;
  final_err : error;
}.

(** [s[:n]] and [s[n:]], cut at the length of [s]. *)
Fixpoint string_take (n : nat) (s : string) : string :=
  match n, s with
  | S n', String c s' => String c (string_take n' s')
  | _, _ => EmptyString
  end.

Fixpoint string_drop (n : nat) (s : string) : string :=
  match n, s with
  | S n', String _ s' => string_drop n' s'
  | _, _ => s
  end.

(** [r.Read(p)] with [len(p) = n]: the bytes read, the error, and the
    reader afterwards. *)
Definition Read (r : io_Reader) (n : nat) : string * option error * io_Reader :=
  match n with
  | 0 => (EmptyString, None, r)
  | _ =>
      if String.eqb (pending r) EmptyString then (EmptyString, Some (final_err r), r)
      else
        let k := match portions r with
                 | [] => n
                 | c :: _ => Nat.min n (S c)
                 end in
        (string_take k (pending r), None,
         mkReader (string_drop k (pending r)) (tail (portions r)) (final_err r))
  end.

(** The loop of [io.ReadAtLeast(r, buf, min)] with [len(buf) = buflen]:
    [for n < min && err == nil]. [got] is [buf[:n]]. A reader of the
    kind above hands out at least a byte per call or an error, so
    [min - n + 1] rounds are enough. *)
Fixpoint ReadAtLeast_loop (fuel : nat) (r : io_Reader) (buflen min : nat)
  (got : string) (err : option error) : string * option error * io_Reader :=
  match fuel with
  | 0 => (got, err, r)
  | S fuel' =>
      if (String.length got <? min) && bool_decide (err = None) then
        let '(bytes, err', r') := Read r (buflen - String.length got) in
        ReadAtLeast_loop fuel' r' buflen min (got +:+ bytes) err'
      else (got, err, r)
  end.

(** [io.ReadFull(r, buf)] = [ReadAtLeast(r, buf, len(buf))]. *)
Definition io_ReadFull (r : io_Reader) (buflen : nat)
  : string * option error * io_Reader :=
  let '(got, err, r') := ReadAtLeast_loop (S buflen) r buflen buflen EmptyString None in
  let n := String.length got in
  if buflen <=? n then (got, None, r')
  else if (0 <? n) && bool_decide (err = Some io_EOF) then (got, Some io_ErrUnexpectedEOF, r')
  else (got, err, r').

(** ** context, net/http: the values the package handles *)

(** A [context.Context], as far as the package looks into it:
    [context_Cause] is what [context.Cause(ctx)] returns when the
    dispatcher asks, after the transport has returned. *)
Record Context : Type := mkContext { context_Cause : option error }.

Definition context_Background : Context := mkContext None.

(** [url.URL] *)
Record URL : Type := mkURL {
  Scheme : string;
  Opaque : string;
  Host : string;
  Path_ : string;
  RawQuery : string;
  Fragment : string;
}.

Definition set_RawQuery (q : string) (u : URL) : URL :=
  mkURL (Scheme u) (Opaque u) (Host u) (Path_ u) q (Fragment u).

(** [http.Request]: its header starts empty and belongs to the request
    alone, so it is a map by value. *)
Record Request : Type := mkRequest {
  req_ctx : Context;
  req_Method : string;
  req_URL : string;
  req_Body : option io_Reader;
  req_Header : Values;
}.

(** [*http.Response]; [TLS] is a pointer the package only copies. *)
Record http_Response : Type := mkHttpResponse {
  Status : string;
  StatusCode : Z;
  Proto : string;
  ProtoMajor : Z;
  ProtoMinor : Z;
  Header_ : Values;
  Body : io_Reader;
  ContentLength : Z;
  TransferEncoding : list string;
  Close : bool;
  Uncompressed : bool;
  Trailer : Values;
  Request_ : option Request;
  TLS : option nat;
}.

(** [sling.Response]: the [http.Response] without its body. *)
Record Response : Type := mkResponse {
  r_Status : string;
  r_StatusCode : Z;
  r_Proto : string;
  r_ProtoMajor : Z;
  r_ProtoMinor : Z;
  r_Header : Values;
  r_ContentLength : Z;
  r_TransferEncoding : list string;
  r_Close : bool;
  r_Uncompressed : bool;
  r_Trailer : Values;
  r_Request : option Request;
  r_TLS : option nat;
}.

(** [newResponse(resp)] reads every field through the pointer [resp]: on
    a nil pointer the first read, [resp.Status], panics. *)
Definition newResponse (resp : option http_Response) : result Response :=
  match resp with
  | None => Panic nil_dereference
  | Some resp =>
      Ret (mkResponse (Status resp) (StatusCode resp) (Proto resp)
             (ProtoMajor resp) (ProtoMinor resp) (Header_ resp)
             (ContentLength resp) (TransferEncoding resp) (Close resp)
             (Uncompressed resp) (Trailer resp) (Request_ resp) (TLS resp))
  end.

(** The interface [Doer]: [Do(req)] returns a response pointer, nil
    when there is none, and an error. *)
Definition Doer : Type := Request → option http_Response * option error.

(** The interface [ResponseDecoder]: [Decode(resp, v) error]. *)
Definition ResponseDecoder : Type := http_Response → any → option error.

(** ** The library functions taken as given *)

Class NetLib : Type := {
  (** [url.Parse] *)
  url_Parse : string → URL + error;
  (** [u.String()] *)
  URL_String : URL → string;
  (** [base.ResolveReference(ref)] *)
  URL_ResolveReference : URL → URL → URL;
  (** [goquery.Values]: the encoder of url-tagged structs *)
  goquery_Values : any → Values + error;
  (** [json.Marshal] followed by wrapping the bytes in a reader *)
  json_Body : any → io_Reader + error;
  (** [http.NewRequestWithContext] *)
  http_NewRequestWithContext :
    Context → string → string → option io_Reader → Request + error;
  (** [http.DefaultClient] *)
  http_DefaultClient : Doer;
  (** [jsonDecoder{}.Decode] *)
  jsonDecoder : ResponseDecoder;
}.

(** ** Body providers *)

Definition contentType : string := "Content-Type".
Definition jsonContentType : string := "application/json".
Definition formContentType : string := "application/x-www-form-urlencoded".

(** The values of interface type [BodyProvider]: the three providers of
    the package, and a provider of the caller's, given by what its two
    methods return. *)
Inductive BodyProvider : Type :=
  | bodyProvider (body : io_Reader)
  | jsonBodyProvider (payload : any)
  | formBodyProvider (payload : any)
  | customBodyProvider (ct : string) (body : io_Reader + error).

(** Modelled from the spec: the methods [ContentType()] of the three
    providers of the package, whose file is not among the sources. The
    raw provider has an empty content type, the JSON provider the JSON
    media type, the form provider the form-urlencoded media type
    (spec 4.3). *)
Definition ContentType (p : BodyProvider) : string :=
  match p with
  | bodyProvider _ => EmptyString
  | jsonBodyProvider _ => jsonContentType
  | formBodyProvider _ => formContentType
  | customBodyProvider ct _ => ct
  end.

(** Modelled from the spec: the methods [Body()] of the three providers
    of the package, whose file is not among the sources. The raw
    provider hands out its stream, the JSON provider the serialised
    payload, the form provider the encoded multi-map, a raw one as it is
    and a structured one through the encoder (spec 4.3). *)
Definition provider_Body `{NetLib} (p : BodyProvider) : io_Reader + error :=
  match p with
  | bodyProvider body => inl body
  | jsonBodyProvider payload => json_Body payload
  | formBodyProvider payload =>
      match (match payload with
             | AnyValues v => inl v
             | _ => goquery_Values payload
             end) with
      | inl v => inl (mkReader (Values_Encode v) [] io_EOF)
      | inr e => inr e
      end
  | customBodyProvider _ body => body
  end.

(** ** The builder *)

(** The two stores of backing arrays the builders of a program share:
    header values ([[]string]) and query sources ([[]interface{}]). *)
Record Store : Type := mkStore {
  strings : list (list string);
  ifaces : list (list any);
}.

Record Sling : Type := mkSling {
  httpClient : Doer;
  method : string;
  rawURL : string;
  header : Header;
  queryStructs : slice;
  bodyProvider_ : option BodyProvider;
  responseDecoder : ResponseDecoder;
}.

Definition set_httpClient (d : Doer) (s : Sling) : Sling :=
  mkSling d (method s) (rawURL s) (header s) (queryStructs s) (bodyProvider_ s) (responseDecoder s).
Definition set_method (m : string) (s : Sling) : Sling :=
  mkSling (httpClient s) m (rawURL s) (header s) (queryStructs s) (bodyProvider_ s) (responseDecoder s).
Definition set_rawURL (u : string) (s : Sling) : Sling :=
  mkSling (httpClient s) (method s) u (header s) (queryStructs s) (bodyProvider_ s) (responseDecoder s).
Definition set_header (h : Header) (s : Sling) : Sling :=
  mkSling (httpClient s) (method s) (rawURL s) h (queryStructs s) (bodyProvider_ s) (responseDecoder s).
Definition set_queryStructs (q : slice) (s : Sling) : Sling :=
  mkSling (httpClient s) (method s) (rawURL s) (header s) q (bodyProvider_ s) (responseDecoder s).
Definition set_bodyProvider (b : option BodyProvider) (s : Sling) : Sling :=
  mkSling (httpClient s) (method s) (rawURL s) (header s) (queryStructs s) b (responseDecoder s).
Definition set_responseDecoder (d : ResponseDecoder) (s : Sling) : Sling :=
  mkSling (httpClient s) (method s) (rawURL s) (header s) (queryStructs s) (bodyProvider_ s) d.

(** The header values and the query sources a builder holds, read
    through the store. *)
Definition headers_of (st : Store) (s : Sling) : gmap string (list string) :=
  header_values (strings st) (header s).
Definition queries_of (st : Store) (s : Sling) : list any :=
  elems (ifaces st) (queryStructs s).

Section Builder.
Context `{NetLib}.

(** [sling.New()]: [make(http.Header)], [make([]interface{}, 0)]. *)
Definition New : Sling :=
  mkSling http_DefaultClient "GET" EmptyString ∅ nil_slice None jsonDecoder.

(** [s.New()]: the header map is copied key by key, [headerCopy[k] = v]
    copies the slice header [v], not its array; the query sources are
    appended to an empty slice. *)
Definition Sling_New (s : Sling) (st : Store) : Sling * Store :=
  let headerCopy := map_fold (λ k v (acc : Header), <[k := v]> acc) ∅ (header s) in
  let '(qs, ifaces') := append (AnyPtr 0) (ifaces st) nil_slice (queries_of st s) in
  (mkSling (httpClient s) (method s) (rawURL s) headerCopy qs
     (bodyProvider_ s) (responseDecoder s),
   mkStore (strings st) ifaces').

(** [s.Doer(doer)] *)
Definition Sling_Doer (doer : option Doer) (s : Sling) : Sling :=
  match doer with
  | None => set_httpClient http_DefaultClient s
  | Some d => set_httpClient d s
  end.

(** [s.Add(key, value)] *)
Definition Add (key value : string) (s : Sling) (st : Store) : Sling * Store :=
  let '(h, strs) := Header_Add key value (header s) (strings st) in
  (set_header h s, mkStore strs (ifaces st)).

(** [s.Set(key, value)] *)
Definition Set_ (key value : string) (s : Sling) (st : Store) : Sling * Store :=
  let '(h, strs) := Header_Set key value (header s) (strings st) in
  (set_header h s, mkStore strs (ifaces st)).

(** [s.AddHeaders(headers)]: [headers] is the caller's map, listed in
    the order the [range] visits it. *)
Definition AddHeaders (headers : list (string * list string)) (s : Sling) (st : Store)
  : Sling * Store :=
  foldl (λ acc kv,
           foldl (λ acc' value, Add kv.1 value acc'.1 acc'.2) acc kv.2)
        (s, st) headers.

(** The inner loop of [SetHeaders]: [Set] for index 0, [Add] after. *)
Fixpoint SetHeaders_values (key : string) (i : nat) (values : list string)
  (s : Sling) (st : Store) : Sling * Store :=
  match values with
  | [] => (s, st)
  | value :: rest =>
      let '(s', st') := match i with
                        | 0 => Set_ key value s st
                        | _ => Add key value s st
                        end in
      SetHeaders_values key (S i) rest s' st'
  end.

(** [s.SetHeaders(headers)] *)
Definition SetHeaders (headers : list (string * list string)) (s : Sling) (st : Store)
  : Sling * Store :=
  foldl (λ acc kv, SetHeaders_values kv.1 0 kv.2 acc.1 acc.2) (s, st) headers.

(** [s.Base(rawURL)] *)
Definition Base (rawURL : string) (s : Sling) : Sling := set_rawURL rawURL s.

(** [s.Path(path)] *)
Definition Path (path : string) (s : Sling) : Sling :=
  match url_Parse (rawURL s), url_Parse path with
  | inl baseURL, inl pathURL =>
      set_rawURL (URL_String (URL_ResolveReference baseURL pathURL)) s
  | _, _ => s
  end.

(** [s.Method(method)] *)
Definition Method (method : string) (s : Sling) : Sling := set_method method s.

(** The method setters: [s.Head(pathURL)], [s.Get(pathURL)], ... set
    the method and call [Path]. *)
Definition Head (pathURL : string) (s : Sling) : Sling := Path pathURL (set_method "HEAD" s).
Definition Get (pathURL : string) (s : Sling) : Sling := Path pathURL (set_method "GET" s).
Definition Post (pathURL : string) (s : Sling) : Sling := Path pathURL (set_method "POST" s).
Definition Put (pathURL : string) (s : Sling) : Sling := Path pathURL (set_method "PUT" s).
Definition Patch (pathURL : string) (s : Sling) : Sling := Path pathURL (set_method "PATCH" s).
Definition Delete (pathURL : string) (s : Sling) : Sling := Path pathURL (set_method "DELETE" s).
Definition Options (pathURL : string) (s : Sling) : Sling := Path pathURL (set_method "OPTIONS" s).
Definition Trace (pathURL : string) (s : Sling) : Sling := Path pathURL (set_method "TRACE" s).
Definition Connect (pathURL : string) (s : Sling) : Sling := Path pathURL (set_method "CONNECT" s).

(** [s.QueryStruct(queryStruct)] *)
Definition QueryStruct (queryStruct : option any) (s : Sling) (st : Store)
  : Sling * Store :=
  match queryStruct with
  | Some q =>
      let '(qs, ifaces') := append (AnyPtr 0) (ifaces st) (queryStructs s) [q] in
      (set_queryStructs qs s, mkStore (strings st) ifaces')
  | None => (s, st)
  end.

(** [s.QueryValues(values)]: a nil map is [None]. *)
Definition QueryValues (values : option Values) (s : Sling) (st : Store)
  : Sling * Store :=
  match values with
  | Some v =>
      let '(qs, ifaces') := append (AnyPtr 0) (ifaces st) (queryStructs s) [AnyValues v] in
      (set_queryStructs qs s, mkStore (strings st) ifaces')
  | None => (s, st)
  end.

(** [s.BodyProvider(body)] *)
Definition Sling_BodyProvider (body : option BodyProvider) (s : Sling) (st : Store)
  : Sling * Store :=
  match body with
  | None => (s, st)
  | Some b =>
      let s' := set_bodyProvider (Some b) s in
      let ct := ContentType b in
      if negb (String.eqb ct EmptyString) then Set_ contentType ct s' st
      else (s', st)
  end.

(** [s.Body(body)] *)
Definition Sling_Body (body : option io_Reader) (s : Sling) (st : Store)
  : Sling * Store :=
  match body with
  | None => (s, st)
  | Some r => Sling_BodyProvider (Some (bodyProvider r)) s st
  end.

(** [s.BodyJSON(bodyJSON)] *)
Definition BodyJSON (bodyJSON : option any) (s : Sling) (st : Store) : Sling * Store :=
  match bodyJSON with
  | None => (s, st)
  | Some x => Sling_BodyProvider (Some (jsonBodyProvider x)) s st
  end.

(** [s.BodyForm(bodyForm)] *)
Definition BodyForm (bodyForm : option any) (s : Sling) (st : Store) : Sling * Store :=
  match bodyForm with
  | None => (s, st)
  | Some x => Sling_BodyProvider (Some (formBodyProvider x)) s st
  end.

(** [s.ResponseDecoder(decoder)] *)
Definition Sling_ResponseDecoder (decoder : option ResponseDecoder) (s : Sling) : Sling :=
  match decoder with
  | None => s
  | Some d => set_responseDecoder d s
  end.
End Builder.

(** ** Building the request *)

Section Requests.
Context `{NetLib}.

(** The loops [for key, values := range queryValues] and
    [for _, value := range values] of [addQueryStructs]. The keys of a
    map are distinct and [Add] touches one key, so the order in which
    [range] visits the map does not show in the result. *)
Definition add_values (queryValues urlValues : Values) : Values :=
  foldl (λ acc kv, foldl (λ acc' value, Values_Add kv.1 value acc') acc kv.2)
        urlValues (map_to_list queryValues).

(** The values of one query source: [queryStruct.(url.Values)] when the
    source is a [url.Values], [goquery.Values(queryStruct)] otherwise. *)
Definition query_values_of (queryStruct : any) : Values + error :=
  match queryStruct with
  | AnyValues v => inl v
  | _ => goquery_Values queryStruct
  end.

(** The loop over the query sources of [addQueryStructs], leaving at
    the first source the encoder rejects. *)
Fixpoint add_sources (urlValues : Values) (queryStructs : list any) : Values + error :=
  match queryStructs with
  | [] => inl urlValues
  | queryStruct :: rest =>
      match query_values_of queryStruct with
      | inr err => inr err
      | inl queryValues => add_sources (add_values queryValues urlValues) rest
      end
  end.

(** [addQueryStructs(reqURL, queryStructs)]: the URL with its new
    [RawQuery], or the error. *)
Definition addQueryStructs (reqURL : URL) (queryStructs : list any) : URL + error :=
  match ParseQuery (RawQuery reqURL) with
  | (_, Some err) => inr err
  | (urlValues, None) =>
      match add_sources urlValues queryStructs with
      | inr err => inr err
      | inl urlValues' => inl (set_RawQuery (Values_Encode urlValues') reqURL)
      end
  end.

(** [addHeaders(req, header)]: [req.Header.Add(key, value)] for every
    value of the builder's header. *)
Definition addHeaders (req : Request) (header : gmap string (list string)) : Request :=
  mkRequest (req_ctx req) (req_Method req) (req_URL req) (req_Body req)
    (foldl (λ acc kv,
              foldl (λ acc' value, Values_Add (CanonicalMIMEHeaderKey kv.1) value acc')
                    acc kv.2)
           (req_Header req) (map_to_list header)).

(** [s.requestWithContext(ctx)] *)
Definition requestWithContext (ctx : Context) (s : Sling) (st : Store)
  : Request + error :=
  match url_Parse (rawURL s) with
  | inr err => inr err
  | inl reqURL =>
      match addQueryStructs reqURL (queries_of st s) with
      | inr err => inr err
      | inl reqURL' =>
          match (match bodyProvider_ s with
                 | Some p =>
                     match provider_Body p with
                     | inl body => inl (Some body)
                     | inr err => inr err
                     end
                 | None => inl None
                 end) with
          | inr err => inr err
          | inl body =>
              match http_NewRequestWithContext ctx (method s) (URL_String reqURL') body with
              | inr err => inr err
              | inl req => inl (addHeaders req (headers_of st s))
              end
          end
      end
  end.

(** [s.request()] *)
Definition request (s : Sling) (st : Store) : Request + error :=
  requestWithContext context_Background s st.
End Requests.

(** ** Sending and decoding *)

(** What the dispatcher does to the response besides computing its
    result: calls of the decoder, the draining of the body
    ([io.Copy(io.Discard, resp.Body)]) and its closing. *)
Inductive event : Type :=
  | EvDecode (v : any)
  | EvDrain
  | EvClose.

Definition is_decode (e : event) : bool :=
  match e with
  | EvDecode _ => true
  | _ => false
  end.

(** [isSuccessful(code)] *)
Definition isSuccessful (code : Z) : bool := (200 <=? code)%Z && (code <=? 299)%Z.

Definition StatusNoContent : Z := 204.

(** [readWithCap(r, cap)]; the argument [cap] is not used by the code,
    the bound is the local [maxBodySize]. *)
Definition readWithCap (r : io_Reader) (cap : nat) : string + error :=
  let maxBodySize := 100 in
  let '(buf, err, _) := io_ReadFull r (maxBodySize + 1) in
  let n := String.length buf in
  let fatal := match err with
               | Some e => if errors_Is e io_ErrUnexpectedEOF then None else Some e
               | None => None
               end in
  match fatal with
  | Some e => inr e
  | None =>
      if n =? 0 then inr (errorString "got no response content")
      else if n <=? maxBodySize then inl buf
      else inl (string_take maxBodySize buf +:+ " (truncated)")
  end.

(** [decodeResponse(resp, decoder, successV, failureV)]: the error, and
    the calls of the decoder made. *)
Definition decodeResponse (resp : http_Response) (decoder : ResponseDecoder)
  (successV failureV : option any) : option error * list event :=
  let code := StatusCode resp in
  if isSuccessful code then
    match successV with
    | Some v => (decoder resp v, [EvDecode v])
    | None => (None, [])
    end
  else
    match failureV with
    | Some v => (decoder resp v, [EvDecode v])
    | None =>
        match readWithCap (Body resp) 100 with
        | inr err =>
            (Some (wrapError ("status code " +:+ fmt_d code +:+
                              " was not successful and could not get body: ") err), [])
        | inl body =>
            (Some (errorString ("status code " +:+ fmt_d code +:+
                                " was not successful, got body: " +:+ body)), [])
        end
    end.

(** [s.do(req)] *)
Definition do (s : Sling) (req : Request) : option http_Response * option error :=
  let '(resp, err) := httpClient s req in
  match err with
  | Some e =>
      if bool_decide (e = context_Canceled) then
        match context_Cause (req_ctx req) with
        | Some ctxErr => (resp, Some ctxErr)
        | None => (resp, Some e)
        end
      else (resp, Some e)
  | None => (resp, None)
  end.

(** The two deferred calls of [doDecode], run when it returns, last
    registered first. *)
Definition deferred : list event := [EvDrain; EvClose].

(** [s.doDecode(req, successV, failureV)]: the summary, the error and
    the events, or a panic. *)
Definition doDecode (s : Sling) (req : Request) (successV failureV : option any)
  : result (Response * option error * list event) :=
  match do s req with
  | (resp, Some err) =>
      match newResponse resp with
      | Ret r => Ret (r, Some err, [])
      | Panic msg => Panic msg
      end
  | (None, None) => Panic nil_dereference
  | (Some resp, None) =>
      match newResponse (Some resp) with
      | Panic msg => Panic msg
      | Ret r =>
          if (StatusCode resp =? StatusNoContent)%Z then Ret (r, None, deferred)
          else if (ContentLength resp =? 0)%Z then
            if is_nil failureV && negb (isSuccessful (StatusCode resp)) then
              Ret (r, Some (errorString ("status code " +:+ fmt_d (StatusCode resp) +:+
                                         " was not successful and had no body")),
                   deferred)
            else Ret (r, None, deferred)
          else if negb (is_nil successV) || negb (is_nil failureV) then
            let '(err, evs) := decodeResponse resp (responseDecoder s) successV failureV in
            Ret (r, err, evs ++ deferred)
          else Ret (r, None, deferred)
      end
  end.

Section Receive.
Context `{NetLib}.

(** [s.ReceiveWithContext(ctx, successV, failureV)]; a request that
    cannot be built gives a nil summary and the error. *)
Definition ReceiveWithContext (ctx : Context) (successV failureV : option any)
  (s : Sling) (st : Store) : result (option Response * option error * list event) :=
  match requestWithContext ctx s st with
  | inr err => Ret (None, Some err, [])
  | inl req =>
      match doDecode s req successV failureV with
      | Ret (r, err, evs) => Ret (Some r, err, evs)
      | Panic msg => Panic msg
      end
  end.

(** [s.Receive(successV, failureV)] *)
Definition Receive (successV failureV : option any) (s : Sling) (st : Store)
  : result (option Response * option error * list event) :=
  ReceiveWithContext context_Background successV failureV s st.

(** [s.ReceiveSuccess(successV)] *)
Definition ReceiveSuccess (successV : option any) (s : Sling) (st : Store)
  : result (option Response * option error * list event) :=
  Receive successV None s st.

(** [s.Do(ctx)]: the raw response and the error; the status is read
    through the response pointer only when the transport gave no
    error. *)
Definition Sling_Do (ctx : Context) (s : Sling) (st : Store)
  : result (option http_Response * option error) :=
  match requestWithContext ctx s st with
  | inr err => Ret (None, Some err)
  | inl req =>
      match do s req with
      | (resp, Some err) => Ret (resp, Some err)
      | (None, None) => Panic nil_dereference
      | (Some resp, None) =>
          if (StatusCode resp <? 200)%Z || (300 <=? StatusCode resp)%Z then
            Ret (Some resp,
                 Some (errorString ("status code " +:+ fmt_d (StatusCode resp) +:+
                                    " was not successful")))
          else Ret (Some resp, None)
      end
  end.
End Receive.

(** ** The traced body (tracer.go) *)

Module TracedBody.

(** The interface [io.ReadCloser] of the wrapped body: [Read] on a
    buffer of [p] bytes gives the count, the error and the body
    afterwards. *)
Class ReadCloser (B : Type) : Type := {
  rc_Read : B → nat → nat * option error * B;
  rc_Close : B → option error * B;
}.

(** The interface [Tracer]. *)
Class Tracer (T : Type) : Type := {
  BeginTrace : Context → T → option error * T;
  EndTrace : Context → T → option error * T;
}.

Section BodyWithTracer.
Context {B T : Type} `{ReadCloser B} `{Tracer T}.

(** [bodyWithTracer]; [endCalls] is not a field of the Go struct: it
    counts the calls of [tracer.EndTrace] made through this body. *)
Record bodyWithTracer : Type := mkBody {
  ctx : Context;
  body : B;
  tracer : T;
  hasEnded : bool;
  endCalls : nat;
}.

(** [b.endTrace()] *)
Definition endTrace (b : bodyWithTracer) : option error * bodyWithTracer :=
  if hasEnded b then (None, b)
  else
    let '(err, tracer') := EndTrace (ctx b) (tracer b) in
    (err, mkBody (ctx b) (body b) tracer' true (S (endCalls b))).

(** [b.Read(p)] with [len(p) = p] *)
Definition Read (b : bodyWithTracer) (p : nat)
  : nat * option error * bodyWithTracer :=
  let '(n, err, body') := rc_Read (body b) p in
  let b1 := mkBody (ctx b) body' (tracer b) (hasEnded b) (endCalls b) in
  if bool_decide (err = Some io_EOF) then
    let '(err', b2) := endTrace b1 in
    match err' with
    | Some e =>
        (0, Some (wrapError "got io.EOF and then error while trying to end trace: " e), b2)
    | None => (n, err, b2)
    end
  else (n, err, b1).

(** [b.Close()] *)
Definition Close (b : bodyWithTracer) : option error * bodyWithTracer :=
  let '(err, body') := rc_Close (body b) in
  let b1 := mkBody (ctx b) body' (tracer b) (hasEnded b) (endCalls b) in
  match err with
  | None =>
      let '(err', b2) := endTrace b1 in
      match err' with
      | Some e => (Some (wrapError "got error while trying to end trace: " e), b2)
      | None => (err, b2)
      end
  | Some _ => (err, b1)
  end.

(** The calls a consumer makes on the body. *)
Inductive call : Type :=
  | CallRead (p : nat)
  | CallClose.





End BodyWithTracer.
Arguments bodyWithTracer B T : clear implicits.

End TracedBody.

(** ** A test double of the library *)

(** [stringContainsCTLByte] of net/url: a byte below the space, or
    0x7f. *)
Fixpoint stringContainsCTLByte (s : string) : bool :=
  match s with
  | EmptyString => false
  | String c s' =>
      (nat_of_ascii c <? 32) || (nat_of_ascii c =? 127) || stringContainsCTLByte s'
  end.

(** The double used where a statement is run on concrete values, in the
    way the tests of the package use a stub transport. Its parser
    rejects what [url.Parse] rejects first, a control byte in the raw
    URL, and otherwise only separates the query; its transport fails
    without a response, as [http.Client.Do] does when no connection can
    be made. *)
Definition testLib : NetLib := {|
  url_Parse := λ raw,
    if stringContainsCTLByte raw then
      inr (wrapError ("parse " +:+ strconv_Quote raw +:+ ": ")
             (errorString "net/url: invalid control character in URL"))
    else
      let '(path, query) := strings_Cut "?"%char raw in
      inl (mkURL EmptyString EmptyString EmptyString path query EmptyString);
  URL_String := λ u,
    if String.eqb (RawQuery u) EmptyString then Path_ u
    else Path_ u +:+ "?" +:+ RawQuery u;
  URL_ResolveReference := λ base ref,
    mkURL (Scheme base) (Opaque base) (Host base) (Path_ base +:+ Path_ ref)
      (RawQuery ref) (Fragment ref);
  goquery_Values := λ _, inr (errorString "query: Values() expects struct input");
  json_Body := λ _, inl (mkReader "{}" [] io_EOF);
  http_NewRequestWithContext := λ ctx method url body,
    inl (mkRequest ctx method url body ∅);
  http_DefaultClient := λ _, (None, Some (errorString "dial tcp: connection refused"));
  jsonDecoder := λ _ _, None;
|}.

Definition emptyStore : Store := mkStore [] [].

(** A response of the double transports below. *)
Definition testResponse (code : Z) (length : Z) (body : string) : http_Response :=
  mkHttpResponse (fmt_d code) code "HTTP/1.1" 1 1 ∅ (mkReader body [] io_EOF)
    length [] false false ∅ None None.

(** A builder whose transport answers every request with [resp] and
    [err]. *)
Definition testSling (resp : option http_Response) (err : option error) : Sling :=
  mkSling (λ _, (resp, err)) "GET" "http://api.test/" ∅ nil_slice None (λ _ _, None).

Definition testRequest (ctx : Context) : Request :=
  mkRequest ctx "GET" "http://api.test/" None ∅.

(** A body of [n] bytes, and the first hundred bytes of the bodies of
    more than a hundred. *)
Fixpoint testBody_from (i n : nat) : string :=
  match n with
  | 0 => EmptyString
  | S n' => String (ascii_of_nat (48 + i mod 10)) (testBody_from (S i) n')
  end.

Definition testBody (n : nat) : string := testBody_from 0 n.

Definition testBody100 : string :=
  "0123456789012345678901234567890123456789012345678901234567890123456789012345678901234567890123456789".

(** The wrapped body and the tracer of the package's test of the traced
    body: a buffer of bytes behind a closer, here one whose [Close] may
    fail, and a tracer that records its calls, here one whose [EndTrace]
    may fail. *)
Record testStream : Type := mkTestStream {
  ts_data : string;
  ts_close : option error;
}.

Global Instance testStream_ReadCloser : TracedBody.ReadCloser testStream := {|
  TracedBody.rc_Read b p :=
    if String.eqb (ts_data b) EmptyString then (0, Some io_EOF, b)
    else (Nat.min p (String.length (ts_data b)), None,
          mkTestStream (string_drop p (ts_data b)) (ts_close b));
  TracedBody.rc_Close b := (ts_close b, b);
|}.

Record tracerAndCalls : Type := mkTestTracer {
  calls : list string;
  end_result : option error;
}.

Global Instance tracerAndCalls_Tracer : TracedBody.Tracer tracerAndCalls := {|
  TracedBody.BeginTrace _ t := (None, mkTestTracer (calls t ++ ["beginTrace"]) (end_result t));
  TracedBody.EndTrace _ t := (end_result t, mkTestTracer (calls t ++ ["endTrace"]) (end_result t));
|}.


(** The URL and the sources of the query-merge example. *)
Definition testQueryURL : URL := mkURL "http" "" "h" "/" "a=0" "".
Definition testQuerySources : list Values := [{["a" := ["1"]]}; {["a" := ["2"]]}].

(** ** Builders that share a store *)

(** A slice is well formed in a store: its length is within its
    capacity, and if it has a capacity its array is in the store and as
    long as the capacity. *)
Definition wf_slice {A : Type} (st : list (list A)) (s : slice) : Prop :=
  s_len s ≤ s_cap s ∧
  (s_cap s = 0 ∨ (s_arr s < length st ∧ length (array_of st (s_arr s)) = s_cap s)).

(** Two slices that do not share an array. *)
Definition separate (s t : slice) : Prop :=
  s_cap s = 0 ∨ s_cap t = 0 ∨ s_arr s ≠ s_arr t.

(** The two builders of a store hold well-formed query slices that
    share no array. *)
Definition queries_apart (p : Sling * Sling * Store) : Prop :=
  wf_slice (ifaces p.2) (queryStructs p.1.1) ∧
  wf_slice (ifaces p.2) (queryStructs p.1.2) ∧
  separate (queryStructs p.1.1) (queryStructs p.1.2).

(** A builder and its clone in one store, and the appending of a query
    source to the one or the other. *)
Inductive query_mutation : Type :=
  | OnParent (q : any)
  | OnClone (q : any).

Definition mutate (p : Sling * Sling * Store) (m : query_mutation) : Sling * Sling * Store :=
  match m with
  | OnParent q =>
      let r := QueryStruct (Some q) p.1.1 p.2 in (r.1, p.1.2, r.2)
  | OnClone q =>
      let r := QueryStruct (Some q) p.1.2 p.2 in (p.1.1, r.1, r.2)
  end.

(** The sources a sequence of mutations appends to the parent, and to
    the clone. *)
Definition parent_queries (ms : list query_mutation) : list any :=
  omap (λ m, match m with OnParent q => Some q | OnClone _ => None end) ms.
Definition clone_queries (ms : list query_mutation) : list any :=
  omap (λ m, match m with OnClone q => Some q | OnParent _ => None end) ms.

(** The parent of the example of shared header values: three values
    added under one key. *)
Definition threeValues : Sling * Store :=
  let p1 := Add "K" "a" (New (H := testLib)) emptyStore in
  let p2 := Add "K" "b" p1.1 p1.2 in
  Add "K" "c" p2.1 p2.2.

(** ** Canonical header keys, byte by byte *)

(** What [canonicalMIMEHeaderKey] makes of one byte, [upper] telling
    whether it starts the key or follows a hyphen. *)
Definition canonical_byte (upper : bool) (c : ascii) : ascii :=
  if upper && byte_in "a" "z" c then ascii_of_nat (nat_of_ascii c - toLower)
  else if negb upper && byte_in "A" "Z" c then ascii_of_nat (nat_of_ascii c + toLower)
  else c.

(** ** Invariants of builders in a store *)

(** A store grows: arrays are added at its end and the arrays it has
    keep their length. *)
Definition store_grows {A : Type} (st st' : list (list A)) : Prop :=
  length st ≤ length st' ∧
  ∀ i, i < length st → length (array_of st' i) = length (array_of st i).

(** The slices of a header map are well formed in the store, those of
    two keys share no array, and the keys are canonical. *)
Definition wf_header (st : list (list string)) (h : Header) : Prop :=
  (∀ k s, h !! k = Some s → wf_slice st s) ∧
  (∀ k1 k2 s1 s2, k1 ≠ k2 → h !! k1 = Some s1 → h !! k2 = Some s2 → separate s1 s2) ∧
  (∀ k, is_Some (h !! k) → CanonicalMIMEHeaderKey k = k).

Definition wf_sling (st : Store) (s : Sling) : Prop :=
  wf_header (strings st) (header s) ∧ wf_slice (ifaces st) (queryStructs s).

(** What a mutator of the header does besides changing header values:
    the store grows, the builder stays well formed and so does every
    other well-formed builder, and the query sources stay. *)
Definition keeps_builders (s : Sling) (st : Store) (r : Sling * Store) : Prop :=
  wf_sling r.2 r.1 ∧
  store_grows (strings st) (strings r.2) ∧
  store_grows (ifaces st) (ifaces r.2) ∧
  (∀ t, wf_sling st t → wf_sling r.2 t) ∧
  (∀ t, wf_sling st t → queries_of r.2 t = queries_of st t).

(** The values an entry of the caller's map gives to the canonical key
    [k]: its values if its key has that canonical form. *)
Definition values_for (k : string) (kv : string * list string) : list string :=
  if decide (CanonicalMIMEHeaderKey kv.1 = k) then kv.2 else [].

(** The values of the canonical key [k] after [SetHeaders] has visited
    an entry: the values of the entry if its key has that canonical form
    and it has values, the current ones otherwise. *)
Definition replaced_by (k : string) (cur : list string) (kv : string * list string)
  : list string :=
  if decide (CanonicalMIMEHeaderKey kv.1 = k) then
    match kv.2 with
    | [] => cur
    | _ => kv.2
    end
  else cur.

(** The calls on a builder that touch the store. [OpNew] is [s.New()]:
    it goes on with the clone. *)
Inductive builder_op : Type :=
  | OpAdd (key value : string)
  | OpSet (key value : string)
  | OpAddHeaders (headers : list (string * list string))
  | OpSetHeaders (headers : list (string * list string))
  | OpQueryStruct (queryStruct : option any)
  | OpQueryValues (values : option Values)
  | OpBodyProvider (body : option BodyProvider)
  | OpNew.

Definition apply_op (p : Sling * Store) (o : builder_op) : Sling * Store :=
  match o with
  | OpAdd key value => Add key value p.1 p.2
  | OpSet key value => Set_ key value p.1 p.2
  | OpAddHeaders headers => AddHeaders headers p.1 p.2
  | OpSetHeaders headers => SetHeaders headers p.1 p.2
  | OpQueryStruct queryStruct => QueryStruct queryStruct p.1 p.2
  | OpQueryValues values => QueryValues values p.1 p.2
  | OpBodyProvider body => Sling_BodyProvider body p.1 p.2
  | OpNew => Sling_New p.1 p.2
  end.

(** The builder stays well formed, the store grows, and every other
    well-formed builder of the store stays well formed. *)
Definition keeps_wf (st : Store) (r : Sling * Store) : Prop :=
  wf_sling r.2 r.1 ∧
  store_grows (strings st) (strings r.2) ∧
  store_grows (ifaces st) (ifaces r.2).

(** ** A response whose body breaks *)

(** A response whose body breaks with [err] once its bytes are handed
    out. *)
Definition testBrokenResponse (code : Z) (body : string) (err : error) : http_Response :=
  mkHttpResponse (fmt_d code) code "HTTP/1.1" 1 1 ∅ (mkReader body [] err)
    (-1) [] false false ∅ None None.

(** ** The loops of addQueryStructs over a source *)

(** The two loops of [addQueryStructs] over one source, the entries of
    the source map taken in the order [entries]. *)
Definition add_entries (entries : list (string * list string)) (urlValues : Values) : Values :=
  foldl (λ acc kv, foldl (λ acc' value, Values_Add kv.1 value acc') acc kv.2)
        urlValues entries.

(** ** Header calls on a builder and its clone *)

(** A slice without spare capacity: [len(s) == cap(s)]. *)
Definition full (s : slice) : Prop := s_len s = s_cap s.

(** No slice of the one header map can be appended to in place in an
    array that a slice of the other uses: two slices of the two maps
    share no array, or both are full. *)
Definition headers_apart (h h' : Header) : Prop :=
  ∀ k k' s s', h !! k = Some s → h' !! k' = Some s' →
               separate s s' ∨ (full s ∧ full s').

(** A call of [Add] or [Set], on a builder or on its clone. *)
Inductive header_call : Type :=
  | CallAdd (key value : string)
  | CallSet (key value : string).

Inductive header_mutation : Type :=
  | HeaderOnParent (c : header_call)
  | HeaderOnClone (c : header_call).

Definition do_call (c : header_call) (s : Sling) (st : Store) : Sling * Store :=
  match c with
  | CallAdd key value => Add key value s st
  | CallSet key value => Set_ key value s st
  end.

Definition mutate_header (p : Sling * Sling * Store) (m : header_mutation)
  : Sling * Sling * Store :=
  match m with
  | HeaderOnParent c => let r := do_call c p.1.1 p.2 in (r.1, p.1.2, r.2)
  | HeaderOnClone c => let r := do_call c p.1.2 p.2 in (p.1.1, r.1, r.2)
  end.

(** What a call makes of the values of the canonical key [k]. *)
Definition called (k : string) (cur : list string) (c : header_call) : list string :=
  match c with
  | CallAdd key value => cur ++ values_for k (key, [value])
  | CallSet key value => replaced_by k cur (key, [value])
  end.

Definition parent_calls (ms : list header_mutation) : list header_call :=
  omap (λ m, match m with HeaderOnParent c => Some c | HeaderOnClone _ => None end) ms.
Definition clone_calls (ms : list header_mutation) : list header_call :=
  omap (λ m, match m with HeaderOnClone c => Some c | HeaderOnParent _ => None end) ms.

(** A builder and another one of the same store whose headers are
    apart. *)
Definition headers_safe (p : Sling * Sling * Store) : Prop :=
  wf_sling p.2 p.1.1 ∧ wf_sling p.2 p.1.2 ∧ headers_apart (header p.1.1) (header p.1.2).

(* ===================================================================== *)
(** * Part II: the properties                                             *)
(* ===================================================================== *)

(** ** Slices *)

Section SliceFacts.
Context {A : Type} (zero : A).
Implicit Types (st : list (list A)) (s : slice) (vs : list A).

Lemma array_of_app_fresh st a : array_of (st ++ [a]) (length st) = a.
Proof.
  unfold array_of. rewrite lookup_app_r by lia.
  by rewrite Nat.sub_diag.
Qed.

Lemma array_of_app_old st a i : i < length st → array_of (st ++ [a]) i = array_of st i.
Proof. intros Hi. unfold array_of. by rewrite lookup_app_l. Qed.

Lemma elems_literal st vs :
  let '(s, st') := slice_literal st vs in elems st' s = vs.
Proof.
  destruct vs as [|v vs]; simpl.
  - unfold elems. simpl. by rewrite take_0.
  - unfold elems. simpl s_arr. simpl s_len. rewrite array_of_app_fresh.
    change (S (length vs)) with (length (v :: vs)). by rewrite firstn_all.
Qed.
End SliceFacts.

(** ** Clones *)

Lemma nextslicecap_loop_fits fuel newcap newLen :
  newLen ≤ nextslicecap_loop fuel newcap newLen.
Proof.
  revert newcap. induction fuel as [|fuel IH]; intros newcap;
    cbn [nextslicecap_loop]; [lia|].
  destruct (Nat.leb_spec newLen (newcap + (newcap + 3 * 256) / 4)); [lia | apply IH].
Qed.

Lemma nextslicecap_fits newLen oldCap : newLen ≤ nextslicecap newLen oldCap.
Proof.
  unfold nextslicecap.
  destruct (Nat.ltb_spec (oldCap + oldCap) newLen); [lia|].
  destruct (Nat.ltb_spec oldCap 256); [lia|].
  apply nextslicecap_loop_fits.
Qed.

Section SliceFrame.
Context {A : Type} (zero : A).
Implicit Types (st : list (list A)) (s t : slice) (vs : list A).


Lemma write_from_length (a : list A) i vs : length (write_from a i vs) = length a.
Proof.
  revert a i. induction vs as [|v vs IH]; intros a i; simpl; [done|].
  by rewrite IH, length_insert.
Qed.

Lemma write_from_take (a : list A) i vs :
  i + length vs ≤ length a →
  take (i + length vs) (write_from a i vs) = take i a ++ vs.
Proof.
  revert a i. induction vs as [|v vs IH]; intros a i Hl; simpl in *.
  - by rewrite Nat.add_0_r, app_nil_r.
  - replace (i + S (length vs)) with (S i + length vs) by lia.
    rewrite IH by (rewrite length_insert; lia).
    rewrite (take_S_r _ i v) by (apply list_lookup_insert_eq; lia).
    rewrite take_insert_ge by lia. by rewrite <- app_assoc.
Qed.

Lemma array_of_insert_eq st i (a : list A) :
  i < length st → array_of (<[i := a]> st) i = a.
Proof. intros Hi. unfold array_of. by rewrite list_lookup_insert_eq. Qed.

Lemma array_of_insert_ne st i j (a : list A) :
  i ≠ j → array_of (<[i := a]> st) j = array_of st j.
Proof. intros Hi. unfold array_of. by rewrite list_lookup_insert_ne. Qed.

(** [append] shows the old elements followed by the new ones. *)
Lemma append_elems st s vs :
  wf_slice st s →
  elems (append zero st s vs).2 (append zero st s vs).1 = elems st s ++ vs ∧
  wf_slice (append zero st s vs).2 (append zero st s vs).1.
Proof.
  intros [Hlen Harr]. unfold append.
  destruct (Nat.leb_spec (s_len s + length vs) (s_cap s)) as [Hfit|Hgrow].
  - destruct vs as [|v vs]; [by rewrite app_nil_r|].
    destruct Harr as [Hz | [Hin Hcap]]; [simpl in Hfit; lia|].
    cbn [fst snd]. unfold elems, wf_slice. cbn [s_arr s_len s_cap].
    rewrite array_of_insert_eq, length_insert by done.
    rewrite write_from_take, write_from_length by lia.
    split; [done|]. split; [done|]. by right.
  - cbn [fst snd]. unfold elems at 1, wf_slice. cbn [s_arr s_len s_cap].
    rewrite array_of_app_fresh.
    pose proof (nextslicecap_fits (s_len s + length vs) (s_cap s)) as Hn.
    assert (Hel : length (elems st s) = s_len s).
    { unfold elems. rewrite length_take.
      destruct Harr as [Hz | [_ Hcap]]; lia. }
    split; [|split; [done|right]].
    + rewrite app_assoc. rewrite take_app_le by (rewrite length_app; lia).
      rewrite take_ge by (rewrite length_app; lia). done.
    + rewrite !length_app, length_replicate, Hel. simpl. lia.
Qed.

(** [append] on a slice leaves a slice that does not share its array as
    it was, and the two still share nothing. *)
Lemma append_frame st s t vs :
  wf_slice st s → wf_slice st t → separate s t →
  elems (append zero st s vs).2 t = elems st t ∧
  wf_slice (append zero st s vs).2 t ∧
  separate (append zero st s vs).1 t.
Proof.
  intros [Hlen Harr] [Hlen' Harr'] Hsep.
  destruct (decide (s_cap t = 0)) as [Hz'|Hnz'].
  { assert (Ht : s_len t = 0) by lia.
    unfold elems, wf_slice, separate. rewrite Ht, !take_0.
    split; [done|]. split; [split; [lia | by left] | by right; left]. }
  destruct Harr' as [?|[Hin' Hcap']]; [done|].
  assert (Hwt : wf_slice st t) by (split; [done | by right]).
  unfold append.
  destruct (Nat.leb_spec (s_len s + length vs) (s_cap s)) as [Hfit|Hgrow].
  - destruct vs as [|v vs]; [done|]. cbn [fst snd].
    simpl in Hfit.
    destruct Harr as [Hz | [Hin Hcap]]; [lia|].
    assert (Hne : s_arr s ≠ s_arr t).
    { destruct Hsep as [?|[?|?]]; [lia | lia | done]. }
    unfold elems, wf_slice, separate. cbn [s_arr s_cap].
    rewrite array_of_insert_ne, length_insert by done.
    split; [done|]. split; [split; [done | by right] | by right; right].
  - cbn [fst snd]. unfold elems, wf_slice, separate. cbn [s_arr s_cap].
    rewrite array_of_app_old, length_app by done.
    split; [done|]. split; [split; [done | right; split; [lia | done]] |].
    right; right. lia.
Qed.
End SliceFrame.


Lemma separate_sym s t : separate s t → separate t s.
Proof. unfold separate. intros [?|[?|?]]; auto. Qed.

Lemma wf_nil_slice {A} (st : list (list A)) : wf_slice st nil_slice.
Proof. split; [done | by left]. Qed.

Lemma QueryStruct_append q s st :
  queryStructs (QueryStruct (Some q) s st).1 =
    (append (AnyPtr 0) (ifaces st) (queryStructs s) [q]).1 ∧
  ifaces (QueryStruct (Some q) s st).2 =
    (append (AnyPtr 0) (ifaces st) (queryStructs s) [q]).2.
Proof. unfold QueryStruct. by destruct (append _ _ _ _). Qed.

Lemma Sling_New_append s st :
  queryStructs (Sling_New s st).1 =
    (append (AnyPtr 0) (ifaces st) nil_slice (queries_of st s)).1 ∧
  ifaces (Sling_New s st).2 =
    (append (AnyPtr 0) (ifaces st) nil_slice (queries_of st s)).2.
Proof. unfold Sling_New. by destruct (append _ _ _ _). Qed.


Lemma Sling_New_queries s st :
  wf_slice (ifaces st) (queryStructs s) →
  queries_apart (s, (Sling_New s st).1, (Sling_New s st).2) ∧
  queries_of (Sling_New s st).2 (Sling_New s st).1 = queries_of st s ∧
  queries_of (Sling_New s st).2 s = queries_of st s.
Proof.
  intros Hs. destruct (Sling_New_append s st) as [E1 E2].
  destruct (append_elems (AnyPtr 0) (ifaces st) nil_slice (queries_of st s)
              (wf_nil_slice _)) as [Hel Hwf].
  destruct (append_frame (AnyPtr 0) (ifaces st) nil_slice (queryStructs s)
              (queries_of st s) (wf_nil_slice _) Hs (or_introl eq_refl))
    as (Hfr & Hwf' & Hsep).
  unfold queries_apart, queries_of in *. cbn [fst snd]. rewrite E1, E2.
  split; [split; [done | split; [done | by apply separate_sym]]|].
  split; [|done]. rewrite Hel. done.
Qed.

Lemma mutate_queries p m :
  queries_apart p →
  queries_apart (mutate p m) ∧
  queries_of (mutate p m).2 (mutate p m).1.1 =
    queries_of p.2 p.1.1 ++ parent_queries [m] ∧
  queries_of (mutate p m).2 (mutate p m).1.2 =
    queries_of p.2 p.1.2 ++ clone_queries [m].
Proof.
  destruct p as [[b c] st]. intros (Hb & Hc & Hsep). cbn [fst snd] in *.
  destruct m as [q|q]; unfold mutate, queries_apart, queries_of; cbn [fst snd].
  - destruct (QueryStruct_append q b st) as [E1 E2]. rewrite E1, E2.
    destruct (append_elems (AnyPtr 0) (ifaces st) (queryStructs b) [q] Hb) as [Hel Hwf].
    destruct (append_frame (AnyPtr 0) (ifaces st) (queryStructs b) (queryStructs c) [q]
                Hb Hc Hsep) as (Hfr & Hwf' & Hsep').
    simpl. rewrite app_nil_r. done.
  - destruct (QueryStruct_append q c st) as [E1 E2]. rewrite E1, E2.
    destruct (append_elems (AnyPtr 0) (ifaces st) (queryStructs c) [q] Hc) as [Hel Hwf].
    destruct (append_frame (AnyPtr 0) (ifaces st) (queryStructs c) (queryStructs b) [q]
                Hc Hb (separate_sym _ _ Hsep)) as (Hfr & Hwf' & Hsep').
    simpl. rewrite app_nil_r. split; [|done].
    split; [done | split; [done | by apply separate_sym]].
Qed.

Lemma parent_queries_cons m ms :
  parent_queries (m :: ms) = parent_queries [m] ++ parent_queries ms.
Proof. by destruct m. Qed.

Lemma clone_queries_cons m ms :
  clone_queries (m :: ms) = clone_queries [m] ++ clone_queries ms.
Proof. by destruct m. Qed.

Lemma mutations_queries ms p :
  queries_apart p →
  queries_of (foldl mutate p ms).2 (foldl mutate p ms).1.1 =
    queries_of p.2 p.1.1 ++ parent_queries ms ∧
  queries_of (foldl mutate p ms).2 (foldl mutate p ms).1.2 =
    queries_of p.2 p.1.2 ++ clone_queries ms.
Proof.
  revert p. induction ms as [|m ms IH]; intros p Hp.
  - simpl. by rewrite !app_nil_r.
  - destruct (mutate_queries p m Hp) as (Hp' & H1 & H2).
    destruct (IH _ Hp') as [I1 I2]. cbn [foldl].
    rewrite I1, I2, H1, H2, <- !app_assoc.
    by rewrite <- parent_queries_cons, <- clone_queries_cons.
Qed.

(** The part of C1 on query sources holds: whatever sources are
    appended to a builder and to its clone after [New()], in whatever
    order, each of the two holds the sources the builder had when it
    was cloned followed by the ones appended to itself. *)
Theorem clone_query_sources_independent (s : Sling) (st : Store) (ms : list query_mutation) :
  wf_slice (ifaces st) (queryStructs s) →
  let p := foldl mutate (s, (Sling_New s st).1, (Sling_New s st).2) ms in
  queries_of p.2 p.1.1 = queries_of st s ++ parent_queries ms ∧
  queries_of p.2 p.1.2 = queries_of st s ++ clone_queries ms.
Proof.
  intros Hs p. destruct (Sling_New_queries s st Hs) as (Hp & E1 & E2).
  destruct (mutations_queries ms _ Hp) as [H1 H2]. subst p.
  cbn [fst snd] in H1, H2. by rewrite H1, H2, E1, E2.
Qed.

(** C1 fails on the header values. The parent holds three values under
    one key, in an array of capacity four, and is cloned. When the
    parent adds a value and the clone then adds one, the value of the
    clone replaces the one of the parent in the parent's header; in the
    other order the value of the parent replaces the one of the clone in
    the clone's header. The header maps themselves are not touched by
    the other builder's call: the slice headers stay, the shared array
    changes. *)
Theorem clone_shares_header_arrays :
  let B := threeValues.1 in
  let cloned := Sling_New B threeValues.2 in
  let C := cloned.1 in
  (let parent_adds := Add "K" "d" B cloned.2 in
   let clone_adds := Add "K" "e" C parent_adds.2 in
   headers_of parent_adds.2 parent_adds.1 !! "K" = Some ["a"; "b"; "c"; "d"] ∧
   headers_of clone_adds.2 parent_adds.1 !! "K" = Some ["a"; "b"; "c"; "e"]) ∧
  (let clone_adds := Add "K" "d" C cloned.2 in
   let parent_adds := Add "K" "e" B clone_adds.2 in
   headers_of clone_adds.2 clone_adds.1 !! "K" = Some ["a"; "b"; "c"; "d"] ∧
   headers_of parent_adds.2 clone_adds.1 !! "K" = Some ["a"; "b"; "c"; "e"]).
Proof. vm_compute. repeat split. Qed.

(** ** Strings of bytes *)

Lemma string_app_cons (x : ascii) (a b : string) : String x a +:+ b = String x (a +:+ b).
Proof. reflexivity. Qed.

Lemma string_app_empty_l (a : string) : EmptyString +:+ a = a.
Proof. reflexivity. Qed.

Lemma string_length_app (a b : string) :
  String.length (a +:+ b) = String.length a + String.length b.
Proof.
  induction a as [|c a IH]; [done|].
  rewrite string_app_cons. simpl. by rewrite IH.
Qed.

Lemma string_app_assoc (a b c : string) : (a +:+ b) +:+ c = a +:+ b +:+ c.
Proof.
  induction a as [|x a IH]; [done|].
  rewrite !string_app_cons. by rewrite IH.
Qed.

Lemma string_app_empty_r (a : string) : a +:+ EmptyString = a.
Proof.
  induction a as [|x a IH]; [done|].
  rewrite string_app_cons. by rewrite IH.
Qed.

Lemma string_take_drop (n : nat) (s : string) : string_take n s +:+ string_drop n s = s.
Proof.
  revert s. induction n as [|n IH]; intros [|c s]; simpl; try done.
  rewrite string_app_cons. by rewrite IH.
Qed.

Lemma string_length_take (n : nat) (s : string) :
  String.length (string_take n s) = Nat.min n (String.length s).
Proof.
  revert s. induction n as [|n IH]; intros [|c s]; simpl; try done.
  by rewrite IH.
Qed.

Lemma string_take_all (n : nat) (s : string) : String.length s ≤ n → string_take n s = s.
Proof.
  revert s. induction n as [|n IH]; intros [|c s]; simpl; try done; try lia.
  intros Hl. rewrite IH; [done | lia].
Qed.

Lemma string_take_app_l (n : nat) (a b : string) :
  n ≤ String.length a → string_take n (a +:+ b) = string_take n a.
Proof.
  revert a. induction n as [|n IH]; intros a Hl.
  - by destruct (a +:+ b), a.
  - destruct a as [|c a]; simpl in Hl; [lia|].
    rewrite string_app_cons. simpl. f_equal. apply IH. lia.
Qed.

Lemma string_take_take (n m : nat) (s : string) :
  n ≤ m → string_take n (string_take m s) = string_take n s.
Proof.
  revert m s. induction n as [|n IH]; intros [|m] [|c s] Hl; simpl; try done; try lia.
  rewrite IH; [done | lia].
Qed.

(** ** Body providers and the content type *)

Lemma canonical_Content_Type : CanonicalMIMEHeaderKey contentType = contentType.
Proof. reflexivity. Qed.

Lemma headers_of_Set key value s st :
  headers_of (Set_ key value s st).2 (Set_ key value s st).1
    !! CanonicalMIMEHeaderKey key = Some [value].
Proof.
  unfold Set_, Header_Set, headers_of, header_values. simpl.
  rewrite lookup_fmap, lookup_insert_eq. simpl.
  unfold elems. simpl. by rewrite array_of_app_fresh.
Qed.

(** C8. [BodyJSON(x)] with a non-nil [x] makes the JSON provider the
    active body provider and sets the header [Content-Type] to the one
    value [application/json]; a following [Body(reader)] with a non-nil
    reader makes the raw provider the active one and leaves the header
    map and the store as they were, so [Content-Type] still reads
    [application/json]. *)
Theorem BodyJSON_then_Body_keeps_content_type (x : any) (r : io_Reader) (s : Sling) (st : Store) :
  let p1 := BodyJSON (Some x) s st in
  let p2 := Sling_Body (Some r) p1.1 p1.2 in
  bodyProvider_ p1.1 = Some (jsonBodyProvider x) ∧
  headers_of p1.2 p1.1 !! "Content-Type" = Some ["application/json"] ∧
  bodyProvider_ p2.1 = Some (bodyProvider r) ∧
  header p2.1 = header p1.1 ∧ p2.2 = p1.2 ∧
  headers_of p2.2 p2.1 !! "Content-Type" = Some ["application/json"].
Proof.
  intros p1 p2.
  assert (H1 : headers_of p1.2 p1.1 !! "Content-Type" = Some ["application/json"]).
  { pose proof (headers_of_Set contentType jsonContentType
                  (set_bodyProvider (Some (jsonBodyProvider x)) s) st) as HS.
    rewrite canonical_Content_Type in HS. exact HS. }
  assert (H2 : p2 = (set_bodyProvider (Some (bodyProvider r)) p1.1, p1.2)) by done.
  split; [done|]. split; [done|].
  rewrite H2. simpl. done.
Qed.

(** ** The query aggregator *)

Lemma Values_Add_lookup (key value k : string) (v : Values) :
  Values_Add key value v !!! k =
    if decide (key = k) then v !!! key ++ [value] else v !!! k.
Proof.
  unfold Values_Add. rewrite !lookup_total_alt.
  destruct (decide (key = k)) as [->|Hne].
  - by rewrite lookup_insert_eq.
  - by rewrite lookup_insert_ne.
Qed.

Lemma add_all_lookup (key k : string) (values : list string) (v : Values) :
  foldl (λ acc value, Values_Add key value acc) v values !!! k =
    if decide (key = k) then v !!! key ++ values else v !!! k.
Proof.
  revert v. induction values as [|x xs IH]; intros v; simpl.
  - case_decide; [subst; by rewrite app_nil_r | done].
  - rewrite IH. rewrite !Values_Add_lookup.
    destruct (decide (key = k)) as [->|Hne].
    + rewrite decide_True by done. by rewrite <- app_assoc.
    + done.
Qed.

Lemma add_list_lookup (l : list (string * list string)) (v : Values) (k : string) :
  NoDup l.*1 →
  foldl (λ acc kv, foldl (λ acc' value, Values_Add kv.1 value acc') acc kv.2) v l !!! k =
    v !!! k ++ (list_to_map l : Values) !!! k.
Proof.
  revert v. induction l as [|[k0 vs0] l IH]; intros v Hnd.
  - simpl. by rewrite lookup_total_empty, app_nil_r.
  - rewrite fmap_cons in Hnd. apply NoDup_cons in Hnd as [Hk0 Hnd].
    cbn [foldl fst snd]. rewrite IH by done.
    rewrite add_all_lookup. cbn [list_to_map foldr uncurry fst snd].
    rewrite (lookup_total_alt (<[_:=_]> _)).
    destruct (decide (k0 = k)) as [->|Hne].
    + rewrite lookup_insert_eq. cbn [default].
      rewrite (lookup_total_alt (list_to_map l)).
      rewrite (proj1 (not_elem_of_list_to_map l k) Hk0). simpl.
      by rewrite app_nil_r.
    + rewrite lookup_insert_ne by done. by rewrite <- lookup_total_alt.
Qed.

Lemma add_values_lookup (queryValues urlValues : Values) (k : string) :
  add_values queryValues urlValues !!! k = urlValues !!! k ++ queryValues !!! k.
Proof.
  unfold add_values. rewrite add_list_lookup by apply NoDup_fst_map_to_list.
  by rewrite list_to_map_to_list.
Qed.

Section QueryFacts.
Context `{NetLib}.

Lemma add_sources_lookup (qs : list any) (vs : list Values) (urlValues : Values) :
  Forall2 (λ q v, query_values_of q = inl v) qs vs →
  ∃ merged, add_sources urlValues qs = inl merged ∧
    ∀ k, merged !!! k = urlValues !!! k ++ mjoin ((λ v : Values, v !!! k) <$> vs).
Proof.
  intros HF. revert urlValues. induction HF as [|q v qs vs Hq HF IH]; intros urlValues.
  - exists urlValues. split; [done|]. intros k. simpl. by rewrite app_nil_r.
  - destruct (IH (add_values v urlValues)) as (merged & Hm & Hl).
    exists merged. split; [simpl; by rewrite Hq|].
    intros k. rewrite Hl, add_values_lookup. simpl. by rewrite <- app_assoc.
Qed.
End QueryFacts.













Section AggregatorFacts.
Context `{NetLib}.

End AggregatorFacts.

(** [Request] runs the aggregator on the parsed raw URL and the sources
    the builder holds, and creates the request from the URL it
    returns. *)
Lemma requestWithContext_query `{NetLib} ctx s st u u' req :
  url_Parse (rawURL s) = inl u →
  addQueryStructs u (queries_of st s) = inl u' →
  bodyProvider_ s = None →
  http_NewRequestWithContext ctx (method s) (URL_String u') None = inl req →
  requestWithContext ctx s st = inl (addHeaders req (headers_of st s)).
Proof.
  intros Hu Ha Hb Hr. unfold requestWithContext. by rewrite Hu, Ha, Hb, Hr.
Qed.

(** [QueryValues] and [QueryStruct] put their source after the ones the
    builder holds. *)
Lemma QueryStruct_appends q s st :
  wf_slice (ifaces st) (queryStructs s) →
  queries_of (QueryStruct (Some q) s st).2 (QueryStruct (Some q) s st).1 =
    queries_of st s ++ [q].
Proof.
  intros Hs. destruct (QueryStruct_append q s st) as [E1 E2].
  unfold queries_of. rewrite E1, E2.
  by destruct (append_elems (AnyPtr 0) (ifaces st) (queryStructs s) [q] Hs).
Qed.

Lemma QueryValues_appends v s st :
  wf_slice (ifaces st) (queryStructs s) →
  queries_of (QueryValues (Some v) s st).2 (QueryValues (Some v) s st).1 =
    queries_of st s ++ [AnyValues v].
Proof. apply QueryStruct_appends. Qed.


(** The example of the query merge: [http://h/?a=0] with the sources
    [{a:1}] and [{a:2}]. *)
Example query_merge_a012 :
  addQueryStructs (H := testLib) testQueryURL (AnyValues <$> testQuerySources)
  = inl (set_RawQuery "a=0&a=1&a=2" testQueryURL).
Proof. vm_compute. reflexivity. Qed.

(** ** The dispatcher *)

Lemma deferred_no_decode : forallb (λ e, negb (is_decode e)) deferred = true.
Proof. reflexivity. Qed.

Lemma do_no_error s req resp :
  httpClient s req = (resp, None) → do s req = (resp, None).
Proof. intros E. unfold do. by rewrite E. Qed.



(** C7. A response with status 204 that the transport returns without
    an error: [doDecode] returns the summary of the response and a nil
    error, and the only things done to the response are the deferred
    draining and closing of the body: the decoder is not called,
    whatever the two destinations are. *)
Theorem doDecode_no_content (s : Sling) (req : Request) (resp : http_Response)
  (successV failureV : option any) :
  httpClient s req = (Some resp, None) →
  StatusCode resp = 204%Z →
  ∃ r evs,
    newResponse (Some resp) = Ret r ∧
    doDecode s req successV failureV = Ret (r, None, evs) ∧
    forallb (λ e, negb (is_decode e)) evs = true.
Proof.
  intros E Hc. eexists _, deferred. split; [reflexivity|]. split; [|reflexivity].
  unfold doDecode, StatusNoContent. rewrite (do_no_error _ _ _ E).
  cbn [newResponse]. rewrite Hc. reflexivity.
Qed.

Lemma doDecode_no_content_witness :
  let resp := testResponse 204 (-1) "ignored" in
  let s := testSling (Some resp) None in
  let req := testRequest context_Background in
  httpClient s req = (Some resp, None) ∧ StatusCode resp = 204%Z ∧
  ∃ r evs,
    newResponse (Some resp) = Ret r ∧
    doDecode s req (Some (AnyPtr 1)) None = Ret (r, None, evs) ∧
    forallb (λ e, negb (is_decode e)) evs = true.
Proof.
  intros resp s req. split; [reflexivity|]. split; [reflexivity|].
  apply (doDecode_no_content s req resp); reflexivity.
Defined.

Section ReceiveFacts.
Context `{NetLib}.

Lemma ReceiveWithContext_doDecode ctx s st req successV failureV r err evs :
  requestWithContext ctx s st = inl req →
  doDecode s req successV failureV = Ret (r, err, evs) →
  ReceiveWithContext ctx successV failureV s st = Ret (Some r, err, evs).
Proof. intros E1 E2. unfold ReceiveWithContext. by rewrite E1, E2. Qed.

Lemma doDecode_zero_length s req resp successV failureV :
  httpClient s req = (Some resp, None) →
  StatusCode resp ≠ 204%Z →
  ContentLength resp = 0%Z →
  ∃ r, newResponse (Some resp) = Ret r ∧
    doDecode s req successV failureV =
      Ret (r,
           match failureV with
           | None =>
               if isSuccessful (StatusCode resp) then None
               else Some (errorString ("status code " +:+ fmt_d (StatusCode resp) +:+
                                       " was not successful and had no body"))
           | Some _ => None
           end, deferred).
Proof.
  intros E Hc Hl. eexists. split; [reflexivity|].
  unfold doDecode, StatusNoContent. rewrite (do_no_error _ _ _ E). cbn [newResponse].
  rewrite (proj2 (Z.eqb_neq _ _) Hc), Hl. cbn [Z.eqb].
  destruct failureV; [done|]. cbn [is_nil andb]. by destruct (isSuccessful _).
Qed.

(** C3. A response with a declared content length of zero that the
    transport returns without an error, received through
    [ReceiveWithContext]. If its status is not 204 and outside
    [200,299] and the failure destination is nil, the call returns the
    summary and the error [status code <code> was not successful and had
    no body]. If a failure destination is given or the status is in
    [200,299], it returns the summary and a nil error. In both cases the
    only things done to the response are the deferred draining and
    closing: the decoder is not called. *)
Theorem ReceiveWithContext_zero_length (ctx : Context) (s : Sling) (st : Store)
  (req : Request) (resp : http_Response) (successV failureV : option any) :
  requestWithContext ctx s st = inl req →
  httpClient s req = (Some resp, None) →
  ContentLength resp = 0%Z →
  ∃ r, newResponse (Some resp) = Ret r ∧
    (StatusCode resp ≠ 204%Z → isSuccessful (StatusCode resp) = false → failureV = None →
     ReceiveWithContext ctx successV failureV s st =
       Ret (Some r,
            Some (errorString ("status code " +:+ fmt_d (StatusCode resp) +:+
                               " was not successful and had no body")),
            deferred)) ∧
    (isSuccessful (StatusCode resp) = true ∨ failureV ≠ None →
     ReceiveWithContext ctx successV failureV s st = Ret (Some r, None, deferred)) ∧
    forallb (λ e, negb (is_decode e)) deferred = true.
Proof.
  intros Ereq E Hl. eexists. split; [reflexivity|]. split; [|split; [|reflexivity]].
  - intros Hc Hs ->.
    destruct (doDecode_zero_length s req resp successV None E Hc Hl) as (r & Hr & Hd).
    rewrite Hs in Hd. simpl in Hr. injection Hr as <-.
    by apply ReceiveWithContext_doDecode with req.
  - intros Hor. apply ReceiveWithContext_doDecode with req; [done|].
    destruct (decide (StatusCode resp = 204%Z)) as [Hc|Hc].
    + unfold doDecode, StatusNoContent. rewrite (do_no_error _ _ _ E).
      cbn [newResponse]. by rewrite Hc.
    + destruct (doDecode_zero_length s req resp successV failureV E Hc Hl) as (r & Hr & Hd).
      simpl in Hr. injection Hr as <-. rewrite Hd.
      destruct Hor as [Hs | Hf]; [rewrite Hs; by destruct failureV|].
      by destruct failureV.
Qed.

(** C6, as the code has it. If [url.Parse] rejects the raw URL of the
    builder or the argument, [Path(path)] returns the builder as it was
    (and, by its type, no error), so the next [Request] does what it
    would have done without the call: when it is the raw URL that is
    rejected, [Request] returns that parse error; a rejected argument
    is not kept anywhere and is not reported. *)
Theorem Path_absorbs_parse_failure (path : string) (s : Sling) :
  (∃ e, url_Parse (rawURL s) = inr e) ∨ (∃ e, url_Parse path = inr e) →
  Path path s = s ∧
  (∀ ctx st, requestWithContext ctx (Path path s) st = requestWithContext ctx s st) ∧
  (∀ ctx st e, url_Parse (rawURL s) = inr e →
               requestWithContext ctx (Path path s) st = inr e).
Proof.
  intros Hfail.
  assert (HP : Path path s = s).
  { unfold Path. destruct Hfail as [[e ->] | [e ->]]; [done|].
    by destruct (url_Parse (rawURL s)). }
  split; [done|]. rewrite HP. split; [done|]. intros ctx st e He.
  unfold requestWithContext. by rewrite He.
Qed.

Lemma doDecode_transport_error s req resp err successV failureV :
  httpClient s req = (Some resp, Some err) →
  ∃ r err', newResponse (Some resp) = Ret r ∧ do s req = (Some resp, Some err') ∧
    doDecode s req successV failureV = Ret (r, Some err', []).
Proof.
  intros E. unfold doDecode.
  assert (∃ err', do s req = (Some resp, Some err')) as [err' Hd].
  { unfold do. rewrite E. case_bool_decide; [|by eexists].
    destruct (context_Cause _); by eexists. }
  rewrite Hd. simpl. by eexists _, _.
Qed.
End ReceiveFacts.

Lemma ReceiveWithContext_zero_length_witness :
  let resp := testResponse 500 0 "" in
  let s := testSling (Some resp) None in
  let req := testRequest context_Background in
  requestWithContext (H := testLib) context_Background s emptyStore = inl req ∧
  httpClient s req = (Some resp, None) ∧ ContentLength resp = 0%Z ∧
  StatusCode resp ≠ 204%Z ∧ isSuccessful (StatusCode resp) = false ∧
  ∃ r, newResponse (Some resp) = Ret r ∧
    ReceiveWithContext (H := testLib) context_Background (Some (AnyPtr 1)) None s emptyStore =
      Ret (Some r, Some (errorString "status code 500 was not successful and had no body"),
           deferred).
Proof.
  intros resp s req.
  assert (E1 : requestWithContext (H := testLib) context_Background s emptyStore = inl req)
    by (vm_compute; reflexivity).
  split; [exact E1|]. split; [reflexivity|]. split; [reflexivity|].
  split; [discriminate|]. split; [reflexivity|].
  destruct (ReceiveWithContext_zero_length (H := testLib) context_Background s emptyStore
              req resp (Some (AnyPtr 1)) None E1 eq_refl eq_refl) as (r & Hr & Hfail & _ & _).
  exists r. split; [exact Hr|]. apply Hfail; [discriminate | reflexivity | reflexivity].
Defined.

Lemma Path_absorbs_parse_failure_witness :
  let bad := String (ascii_of_nat 127) "http://api.test/" in
  let s := set_rawURL bad (testSling None None) in
  (∃ e, url_Parse (NetLib := testLib) (rawURL s) = inr e) ∧
  Path (H := testLib) "items" s = s ∧
  ∃ e, requestWithContext (H := testLib) context_Background
         (Path (H := testLib) "items" s) emptyStore = inr e.
Proof.
  intros bad s.
  assert (Hbad : ∃ e, url_Parse (NetLib := testLib) (rawURL s) = inr e)
    by (eexists; vm_compute; reflexivity).
  destruct (Path_absorbs_parse_failure (H := testLib) "items" s (or_introl Hbad))
    as (HP & _ & HR).
  split; [exact Hbad|]. split; [exact HP|].
  destruct Hbad as [e He]. exists e. apply HR. exact He.
Defined.

(** C6, as stated, fails when it is the argument that is rejected: the
    raw URL is still the well-formed one, and the next [Request]
    succeeds, with no parse error. *)
Lemma Path_rejected_argument_is_dropped :
  let s := testSling None None in
  let bad := String (ascii_of_nat 127) "items" in
  (∃ e, url_Parse (NetLib := testLib) bad = inr e) ∧
  Path (H := testLib) bad s = s ∧
  requestWithContext (H := testLib) context_Background (Path (H := testLib) bad s) emptyStore
  = inl (testRequest context_Background).
Proof.
  intros s bad. split; [eexists; vm_compute; reflexivity|].
  split; vm_compute; reflexivity.
Qed.

(** The sibling [Do] hands the nil response and the error back. *)
Lemma Sling_Do_nil_response :
  let err := errorString "dial tcp: connection refused" in
  Sling_Do (H := testLib) context_Background (testSling None (Some err)) emptyStore
  = Ret (None, Some err).
Proof. vm_compute. reflexivity. Qed.

(** C10. The transport returns an error and no response, as
    [http.Client.Do] does when the connection fails: [Receive] does not
    return the error, it panics in [newResponse] on the nil
    response. *)
Theorem Receive_nil_response_panics :
  let err := errorString "dial tcp: connection refused" in
  let s := testSling None (Some err) in
  httpClient s (testRequest context_Background) = (None, Some err) ∧
  requestWithContext (H := testLib) context_Background s emptyStore
  = inl (testRequest context_Background) ∧
  Receive (H := testLib) None None s emptyStore = Panic nil_dereference.
Proof.
  intros err s. split; [reflexivity|]. split; vm_compute; reflexivity.
Qed.

(** ** io.ReadFull on a stream that ends well *)

Lemma Read_progress (r : io_Reader) (n : nat) :
  0 < n → pending r ≠ EmptyString →
  ∃ k, 0 < k ∧ k ≤ n ∧
    Read r n = (string_take k (pending r), None,
                mkReader (string_drop k (pending r)) (tail (portions r)) (final_err r)).
Proof.
  intros Hn Hp. unfold Read. destruct n as [|n]; [lia|].
  rewrite (proj2 (String.eqb_neq _ _) Hp).
  destruct (portions r) as [|c cs]; eexists; (split; [|split; [|reflexivity]]); lia.
Qed.

Lemma Read_exhausted (r : io_Reader) (n : nat) :
  0 < n → pending r = EmptyString → Read r n = (EmptyString, Some (final_err r), r).
Proof.
  intros Hn Hp. unfold Read. destruct n as [|n]; [lia|]. by rewrite Hp.
Qed.

Lemma ReadAtLeast_loop_stops fuel r buflen min got err :
  err ≠ None → ReadAtLeast_loop fuel r buflen min got err = (got, err, r).
Proof.
  intros He. destruct fuel; simpl; [done|].
  rewrite (bool_decide_eq_false_2 _ He). by rewrite andb_false_r.
Qed.







(** Through [doDecode] the excerpt reaches the caller when at least one
    destination is given; with both destinations nil the body is not
    looked at and the error is nil. *)
Lemma doDecode_decodes s req resp successV failureV :
  httpClient s req = (Some resp, None) →
  StatusCode resp ≠ 204%Z → ContentLength resp ≠ 0%Z →
  ∃ r, newResponse (Some resp) = Ret r ∧
    doDecode s req successV failureV =
      match successV, failureV with
      | None, None => Ret (r, None, deferred)
      | _, _ =>
          Ret (r, (decodeResponse resp (responseDecoder s) successV failureV).1,
               (decodeResponse resp (responseDecoder s) successV failureV).2 ++ deferred)
      end.
Proof.
  intros E Hc Hl. eexists. split; [reflexivity|].
  unfold doDecode, StatusNoContent. rewrite (do_no_error _ _ _ E). cbn [newResponse].
  rewrite (proj2 (Z.eqb_neq _ _) Hc), (proj2 (Z.eqb_neq _ _) Hl).
  destruct successV, failureV; cbn [is_nil negb orb]; try done;
    by destruct (decodeResponse _ _ _ _).
Qed.

(** ** The traced body *)

Section TracedBodyFacts.
Context {B T : Type} `{TracedBody.ReadCloser B} `{TracedBody.Tracer T}.
Implicit Types (b : TracedBody.bodyWithTracer B T) (c : TracedBody.call) (cs : list TracedBody.call).







End TracedBodyFacts.



(** ** Canonical header keys *)

Lemma canonical_case_cons upper c s :
  canonical_case upper (String c s) =
    String (canonical_byte upper c)
      (canonical_case (Ascii.eqb (canonical_byte upper c) "-"%char) s).
Proof. reflexivity. Qed.

Lemma canonical_byte_idem upper c :
  canonical_byte upper (canonical_byte upper c) = canonical_byte upper c.
Proof.
  destruct upper, c as [[] [] [] [] [] [] [] []]; vm_compute; reflexivity.
Qed.

Lemma canonical_byte_valid upper c :
  validHeaderFieldByte c = true → validHeaderFieldByte (canonical_byte upper c) = true.
Proof.
  destruct upper, c as [[] [] [] [] [] [] [] []]; vm_compute; intros H; exact H || reflexivity.
Qed.

Lemma canonical_case_idem upper s :
  canonical_case upper (canonical_case upper s) = canonical_case upper s.
Proof.
  revert upper. induction s as [|c s IH]; intros upper; [done|].
  rewrite !canonical_case_cons, canonical_byte_idem. f_equal. apply IH.
Qed.

Lemma canonical_case_valid upper s :
  string_forallb validHeaderFieldByte s = true →
  string_forallb validHeaderFieldByte (canonical_case upper s) = true.
Proof.
  revert upper. induction s as [|c s IH]; intros upper; [done|].
  rewrite canonical_case_cons. cbn [string_forallb].
  intros [Hc Hs]%andb_true_iff. by rewrite canonical_byte_valid, IH.
Qed.

(** The canonical form of a header key is canonical. *)
Lemma CanonicalMIMEHeaderKey_idem key :
  CanonicalMIMEHeaderKey (CanonicalMIMEHeaderKey key) = CanonicalMIMEHeaderKey key.
Proof.
  unfold CanonicalMIMEHeaderKey.
  destruct (string_forallb validHeaderFieldByte key) eqn:Hv.
  - rewrite canonical_case_valid by done. apply canonical_case_idem.
  - by rewrite Hv.
Qed.

(** ** The header mutators *)

Section StoreFacts.
Context {A : Type} (zero : A).
Implicit Types (st : list (list A)) (s t : slice) (vs : list A).

Lemma store_grows_refl st : store_grows st st.
Proof. by split. Qed.

Lemma store_grows_trans st1 st2 st3 :
  store_grows st1 st2 → store_grows st2 st3 → store_grows st1 st3.
Proof.
  intros [H1 H2] [H3 H4]. split; [lia|].
  intros i Hi. rewrite H4 by lia. by apply H2.
Qed.

Lemma wf_slice_grows st st' s : store_grows st st' → wf_slice st s → wf_slice st' s.
Proof.
  intros [Hl Ha] [Hlen Harr]. split; [done|].
  destruct Harr as [Hz|[Hin Hcap]]; [by left|].
  right. split; [lia|]. by rewrite Ha.
Qed.

Lemma append_grows st s vs : store_grows st (append zero st s vs).2.
Proof.
  unfold append.
  destruct (Nat.leb_spec (s_len s + length vs) (s_cap s)) as [Hfit|Hgrow].
  - destruct vs as [|v vs]; [apply store_grows_refl|]. cbn [snd].
    split; [by rewrite length_insert|].
    intros i Hi. destruct (decide (s_arr s = i)) as [<-|Hne].
    + by rewrite array_of_insert_eq, write_from_length.
    + by rewrite array_of_insert_ne.
  - cbn [snd]. split; [rewrite length_app; lia|].
    intros i Hi. by rewrite array_of_app_old.
Qed.

Lemma slice_literal_grows st vs : store_grows st (slice_literal st vs).2.
Proof.
  destruct vs as [|v vs]; [apply store_grows_refl|]. cbn [slice_literal snd].
  split; [rewrite length_app; lia|].
  intros i Hi. by rewrite array_of_app_old.
Qed.

(** A literal is a well-formed slice on an array of its own. *)
Lemma slice_literal_fresh st vs :
  elems (slice_literal st vs).2 (slice_literal st vs).1 = vs ∧
  wf_slice (slice_literal st vs).2 (slice_literal st vs).1 ∧
  ∀ t, wf_slice st t →
       elems (slice_literal st vs).2 t = elems st t ∧
       separate (slice_literal st vs).1 t.
Proof.
  destruct vs as [|v vs]; cbn [slice_literal fst snd].
  - split; [done|]. split; [apply wf_nil_slice|]. intros t _. split; [done | by left].
  - split; [|split].
    + unfold elems. cbn [s_arr s_len]. rewrite array_of_app_fresh. apply firstn_all.
    + split; [done|]. right. cbn [s_arr s_cap]. rewrite array_of_app_fresh.
      split; [rewrite length_app; simpl; lia | done].
    + intros t [Hlen Harr]. destruct Harr as [Hz|[Hin Hcap]].
      * split; [|by right; left]. unfold elems.
        rewrite (proj1 (Nat.le_0_r (s_len t))) by lia. by rewrite !take_0.
      * split; [|right; right; cbn [s_arr]; lia].
        unfold elems. by rewrite array_of_app_old.
Qed.
End StoreFacts.

Lemma wf_header_grows st st' h : store_grows st st' → wf_header st h → wf_header st' h.
Proof.
  intros Hg (Hw & Ha & Hc). split; [|done].
  intros k s Hk. eapply wf_slice_grows; [done | by eapply Hw].
Qed.

Lemma wf_header_empty st : wf_header st ∅.
Proof.
  split; [|split]; intros *; rewrite ?lookup_empty; try done.
Qed.

Lemma elems_nil_slice {A} (st : list (list A)) : elems st nil_slice = [].
Proof. unfold elems. simpl. apply take_0. Qed.

Lemma header_values_total st (h : Header) k :
  header_values st h !!! k = elems st (default nil_slice (h !! k)).
Proof.
  unfold header_values. rewrite lookup_total_alt, lookup_fmap.
  destruct (h !! k); [done|]. simpl. by rewrite elems_nil_slice.
Qed.

Lemma wf_header_lookup st h k : wf_header st h → wf_slice st (default nil_slice (h !! k)).
Proof.
  intros [Hw _]. destruct (h !! k) eqn:E; [by eapply Hw | apply wf_nil_slice].
Qed.

Lemma Header_Add_eq key value h st :
  Header_Add key value h st =
    (<[CanonicalMIMEHeaderKey key :=
         (append "" st (default nil_slice (h !! CanonicalMIMEHeaderKey key)) [value]).1]> h,
     (append "" st (default nil_slice (h !! CanonicalMIMEHeaderKey key)) [value]).2).
Proof. unfold Header_Add. by destruct (append _ _ _ _). Qed.

(** [h.Add]: the value goes after the values of its canonical key, the
    other keys keep theirs. *)
Lemma Header_Add_values key value h st :
  wf_header st h →
  wf_header (Header_Add key value h st).2 (Header_Add key value h st).1 ∧
  header_values (Header_Add key value h st).2 (Header_Add key value h st).1 =
    <[CanonicalMIMEHeaderKey key :=
        header_values st h !!! CanonicalMIMEHeaderKey key ++ [value]]> (header_values st h).
Proof.
  intros Hh. rewrite Header_Add_eq. cbn [fst snd].
  set (k := CanonicalMIMEHeaderKey key). set (old := default nil_slice (h !! k)).
  pose proof (wf_header_lookup st h k Hh) as Hold. fold old in Hold.
  destruct (append_elems "" st old [value] Hold) as [Hel Hwf].
  assert (Hother : ∀ k' t, k' ≠ k → h !! k' = Some t →
            elems (append "" st old [value]).2 t = elems st t ∧
            wf_slice (append "" st old [value]).2 t ∧
            separate (append "" st old [value]).1 t).
  { intros k' t Hne Ht. destruct Hh as (Hw & Ha & _).
    apply append_frame; [done | by eapply Hw |].
    subst old. destruct (h !! k) as [o|] eqn:Eo; [by eapply (Ha k k') | by left]. }
  split; [split; [|split]|].
  - intros k' t. destruct (decide (k = k')) as [<-|Hne].
    + rewrite lookup_insert_eq. by intros [= <-].
    + rewrite lookup_insert_ne by done. intros Ht. by apply (Hother k' t).
  - intros k1 k2 s1 s2 Hne.
    destruct (decide (k = k1)) as [<-|Hne1], (decide (k = k2)) as [<-|Hne2]; [done|..].
    + rewrite lookup_insert_eq, lookup_insert_ne by done. intros [= <-] Ht.
      by apply (Hother k2 s2).
    + rewrite lookup_insert_eq, lookup_insert_ne by done. intros Ht [= <-].
      apply separate_sym. by apply (Hother k1 s1).
    + rewrite !lookup_insert_ne by done. destruct Hh as (_ & Ha & _). by apply Ha.
  - intros k'. destruct (decide (k = k')) as [<-|Hne].
    + intros _. apply CanonicalMIMEHeaderKey_idem.
    + rewrite lookup_insert_ne by done. apply (proj2 (proj2 Hh)).
  - apply map_eq. intros k'. unfold header_values at 1.
    rewrite lookup_fmap. destruct (decide (k = k')) as [<-|Hne].
    + rewrite !lookup_insert_eq. simpl. by rewrite Hel, header_values_total.
    + rewrite !lookup_insert_ne by done. unfold header_values. rewrite lookup_fmap.
      destruct (h !! k') as [t|] eqn:Et; [|done]. simpl.
      by rewrite (proj1 (Hother k' t (not_eq_sym Hne) Et)).
Qed.

Lemma Header_Add_grows key value h st : store_grows st (Header_Add key value h st).2.
Proof. rewrite Header_Add_eq. apply append_grows. Qed.

(** [h.Set]: the key has the one value, the other keys keep theirs, and
    so does every other well-formed header map of the store. *)
Lemma Header_Set_values key value h st :
  wf_header st h →
  wf_header (Header_Set key value h st).2 (Header_Set key value h st).1 ∧
  header_values (Header_Set key value h st).2 (Header_Set key value h st).1 =
    <[CanonicalMIMEHeaderKey key := [value]]> (header_values st h) ∧
  ∀ h', wf_header st h' →
        header_values (Header_Set key value h st).2 h' = header_values st h'.
Proof.
  intros Hh. unfold Header_Set.
  destruct (slice_literal_fresh st [value]) as (Hel & Hwf & Hfr).
  destruct (slice_literal st [value]) as [vs st'] eqn:E. cbn [fst snd] in *.
  set (k := CanonicalMIMEHeaderKey key).
  assert (Hg : store_grows st st').
  { pose proof (slice_literal_grows st [value]) as Hg. by rewrite E in Hg. }
  assert (Hframe : ∀ h', wf_header st h' → header_values st' h' = header_values st h').
  { intros h' [Hw' _]. apply map_fmap_ext. intros k' t Ht.
    by apply Hfr, (Hw' k'). }
  split; [split; [|split]|split; [|done]].
  - intros k' t. destruct (decide (k = k')) as [<-|Hne].
    + rewrite lookup_insert_eq. by intros [= <-].
    + rewrite lookup_insert_ne by done. intros Ht.
      eapply wf_slice_grows; [done|]. by eapply (proj1 Hh).
  - intros k1 k2 s1 s2 Hne.
    destruct (decide (k = k1)) as [<-|Hne1], (decide (k = k2)) as [<-|Hne2]; [done|..].
    + rewrite lookup_insert_eq, lookup_insert_ne by done. intros [= <-] Ht.
      by apply Hfr, (proj1 Hh k2).
    + rewrite lookup_insert_eq, lookup_insert_ne by done. intros Ht [= <-].
      apply separate_sym. by apply Hfr, (proj1 Hh k1).
    + rewrite !lookup_insert_ne by done. by apply (proj1 (proj2 Hh)).
  - intros k'. destruct (decide (k = k')) as [<-|Hne].
    + intros _. apply CanonicalMIMEHeaderKey_idem.
    + rewrite lookup_insert_ne by done. apply (proj2 (proj2 Hh)).
  - unfold header_values at 1. rewrite fmap_insert, Hel. f_equal. by apply Hframe.
Qed.

Lemma Header_Set_grows key value h st : store_grows st (Header_Set key value h st).2.
Proof.
  unfold Header_Set. pose proof (slice_literal_grows st [value]) as Hg.
  by destruct (slice_literal st [value]).
Qed.

Lemma Add_eq key value s st :
  Add key value s st =
    (set_header (Header_Add key value (header s) (strings st)).1 s,
     mkStore (Header_Add key value (header s) (strings st)).2 (ifaces st)).
Proof. unfold Add. by destruct (Header_Add _ _ _ _). Qed.

Lemma Set_eq key value s st :
  Set_ key value s st =
    (set_header (Header_Set key value (header s) (strings st)).1 s,
     mkStore (Header_Set key value (header s) (strings st)).2 (ifaces st)).
Proof. unfold Set_. by destruct (Header_Set _ _ _ _). Qed.

Lemma wf_sling_grows st st' t :
  store_grows (strings st) (strings st') → store_grows (ifaces st) (ifaces st') →
  wf_sling st t → wf_sling st' t.
Proof.
  intros H1 H2 [Hh Hq]. split; [by eapply wf_header_grows | by eapply wf_slice_grows].
Qed.

Lemma Add_keeps key value s st :
  wf_sling st s → keeps_builders s st (Add key value s st).
Proof.
  intros [Hh Hq]. rewrite Add_eq. unfold keeps_builders. cbn [fst snd strings ifaces].
  pose proof (Header_Add_grows key value (header s) (strings st)) as Hg.
  destruct (Header_Add_values key value (header s) (strings st) Hh) as [Hwf _].
  split; [by split|]. split; [done|]. split; [apply store_grows_refl|].
  split; [|done].
  intros t Ht. eapply wf_sling_grows; [| |done]; [done | apply store_grows_refl].
Qed.

Lemma Set_keeps key value s st :
  wf_sling st s → keeps_builders s st (Set_ key value s st).
Proof.
  intros [Hh Hq]. rewrite Set_eq. unfold keeps_builders. cbn [fst snd strings ifaces].
  pose proof (Header_Set_grows key value (header s) (strings st)) as Hg.
  destruct (Header_Set_values key value (header s) (strings st) Hh) as [Hwf _].
  split; [by split|]. split; [done|]. split; [apply store_grows_refl|].
  split; [|done].
  intros t Ht. eapply wf_sling_grows; [| |done]; [done | apply store_grows_refl].
Qed.

Lemma wf_sling_New `{NetLib} st : wf_sling st New.
Proof. split; [apply wf_header_empty | apply wf_nil_slice]. Qed.

Lemma wf_sling_testSling resp err st : wf_sling st (testSling resp err).
Proof. split; [apply wf_header_empty | apply wf_nil_slice]. Qed.

(** X1. [Add] puts the value after the values the canonical key has and
    leaves every other key of the builder as it is. *)
Theorem Add_appends_value (key value : string) (s : Sling) (st : Store) :
  wf_sling st s →
  headers_of (Add key value s st).2 (Add key value s st).1 =
    <[CanonicalMIMEHeaderKey key :=
        headers_of st s !!! CanonicalMIMEHeaderKey key ++ [value]]> (headers_of st s).
Proof.
  intros [Hh _]. rewrite Add_eq. unfold headers_of. cbn [fst snd strings header set_header].
  by destruct (Header_Add_values key value (header s) (strings st) Hh).
Qed.

Lemma Add_appends_value_witness :
  let s := testSling None None in
  wf_sling emptyStore s ∧
  headers_of (Add "accept" "a" s emptyStore).2 (Add "accept" "a" s emptyStore).1 =
    <[CanonicalMIMEHeaderKey "accept" :=
        headers_of emptyStore s !!! CanonicalMIMEHeaderKey "accept" ++ ["a"]]>
      (headers_of emptyStore s).
Proof.
  intros s. split; [apply wf_sling_testSling|].
  apply (Add_appends_value "accept" "a" s emptyStore), wf_sling_testSling.
Defined.

Lemma Set_headers (key value : string) (s : Sling) (st : Store) :
  wf_sling st s →
  headers_of (Set_ key value s st).2 (Set_ key value s st).1 =
    <[CanonicalMIMEHeaderKey key := [value]]> (headers_of st s) ∧
  ∀ t, wf_sling st t → headers_of (Set_ key value s st).2 t = headers_of st t.
Proof.
  intros [Hh _]. rewrite Set_eq. unfold headers_of. cbn [fst snd strings header set_header].
  destruct (Header_Set_values key value (header s) (strings st) Hh) as (_ & Hv & Hfr).
  split; [done|]. intros t [Ht _]. by apply Hfr.
Qed.

(** X2. [Set] leaves exactly the one value under the canonical key,
    the other keys of the builder as they are, and the header values of
    every other builder of the store as they are. *)
Theorem Set_replaces_values (key value : string) (s : Sling) (st : Store) :
  wf_sling st s →
  headers_of (Set_ key value s st).2 (Set_ key value s st).1 =
    <[CanonicalMIMEHeaderKey key := [value]]> (headers_of st s) ∧
  ∀ t, wf_sling st t → headers_of (Set_ key value s st).2 t = headers_of st t.
Proof. apply Set_headers. Qed.

Lemma Set_replaces_values_witness :
  let s := testSling None None in
  wf_sling emptyStore s ∧
  headers_of (Set_ "accept" "a" s emptyStore).2 (Set_ "accept" "a" s emptyStore).1 =
    <[CanonicalMIMEHeaderKey "accept" := ["a"]]> (headers_of emptyStore s).
Proof.
  intros s. split; [apply wf_sling_testSling|].
  apply (Set_replaces_values "accept" "a" s emptyStore), wf_sling_testSling.
Defined.

Lemma Add_total key value s st k :
  wf_sling st s →
  headers_of (Add key value s st).2 (Add key value s st).1 !!! k =
    headers_of st s !!! k ++ values_for k (key, [value]).
Proof.
  intros [Hh _]. rewrite Add_eq. unfold headers_of, values_for.
  cbn [fst snd strings header set_header].
  destruct (Header_Add_values key value (header s) (strings st) Hh) as [_ ->].
  rewrite (lookup_total_alt (<[_:=_]> _)).
  destruct (decide (CanonicalMIMEHeaderKey key = k)) as [<-|Hne].
  - by rewrite lookup_insert_eq.
  - rewrite lookup_insert_ne by done. by rewrite <- lookup_total_alt, app_nil_r.
Qed.

Lemma Set_total key value s st k :
  wf_sling st s →
  headers_of (Set_ key value s st).2 (Set_ key value s st).1 !!! k =
    replaced_by k (headers_of st s !!! k) (key, [value]).
Proof.
  intros [Hh _]. rewrite Set_eq. unfold headers_of, replaced_by.
  cbn [fst snd strings header set_header].
  destruct (Header_Set_values key value (header s) (strings st) Hh) as (_ & -> & _).
  rewrite (lookup_total_alt (<[_:=_]> _)).
  destruct (decide (CanonicalMIMEHeaderKey key = k)) as [<-|Hne].
  - by rewrite lookup_insert_eq.
  - rewrite lookup_insert_ne by done. by rewrite <- lookup_total_alt.
Qed.

Lemma keeps_builders_trans s st r r' :
  keeps_builders s st r → keeps_builders r.1 r.2 r' → keeps_builders s st r'.
Proof.
  intros (H1 & H2 & H3 & H4 & H5) (I1 & I2 & I3 & I4 & I5).
  split; [done|]. split; [by eapply store_grows_trans|].
  split; [by eapply store_grows_trans|]. split; [by auto|].
  intros t Ht. rewrite I5 by auto. by apply H5.
Qed.

Lemma keeps_builders_refl s st : wf_sling st s → keeps_builders s st (s, st).
Proof.
  intros Hs. split; [done|]. split; [apply store_grows_refl|].
  split; [apply store_grows_refl|]. by split.
Qed.

(** The inner loop of [AddHeaders]. *)
Lemma Add_each key values s st :
  wf_sling st s →
  let r := foldl (λ acc value, Add key value acc.1 acc.2) (s, st) values in
  keeps_builders s st r ∧
  ∀ k, headers_of r.2 r.1 !!! k = headers_of st s !!! k ++ values_for k (key, values).
Proof.
  revert s st. induction values as [|v vs IH]; intros s st Hs r.
  - split; [by apply keeps_builders_refl|]. intros k. subst r. simpl.
    unfold values_for. case_decide; by rewrite app_nil_r.
  - subst r. cbn [foldl fst snd].
    pose proof (Add_keeps key v s st Hs) as Hk.
    destruct (IH (Add key v s st).1 (Add key v s st).2 (proj1 Hk)) as [Hk' Hv].
    split.
    + eapply keeps_builders_trans; [exact Hk|]. by destruct (Add key v s st).
    + intros k. destruct (Add key v s st) as [s1 st1] eqn:E. cbn [fst snd] in *.
      rewrite Hv. pose proof (Add_total key v s st k Hs) as Ha. rewrite E in Ha.
      cbn [fst snd] in Ha. rewrite Ha, <- app_assoc. f_equal.
      unfold values_for. cbn [fst snd]. by case_decide.
Qed.

(** X3. [AddHeaders] gives every canonical key, after the values it has,
    the values of the entries of the caller's map whose key has that
    canonical form, in the order the entries are visited. *)
Theorem AddHeaders_appends (headers : list (string * list string)) (s : Sling) (st : Store) :
  wf_sling st s →
  wf_sling (AddHeaders headers s st).2 (AddHeaders headers s st).1 ∧
  ∀ k, headers_of (AddHeaders headers s st).2 (AddHeaders headers s st).1 !!! k =
       headers_of st s !!! k ++ mjoin (values_for k <$> headers).
Proof.
  unfold AddHeaders. revert s st.
  induction headers as [|[key values] hs IH]; intros s st Hs.
  - split; [done|]. intros k. simpl. by rewrite app_nil_r.
  - cbn [foldl fst snd].
    destruct (Add_each key values s st Hs) as [Hk Hv].
    destruct (foldl (λ acc value, Add key value acc.1 acc.2) (s, st) values)
      as [s1 st1] eqn:E. cbn [fst snd] in *.
    destruct (IH s1 st1 (proj1 Hk)) as [Hw Hv']. split; [done|].
    intros k. rewrite Hv', Hv. rewrite fmap_cons. simpl. by rewrite <- app_assoc.
Qed.

Lemma AddHeaders_appends_witness :
  let s := testSling None None in
  let headers := [("accept", ["a"; "b"]); ("ACCEPT", ["c"])] in
  wf_sling emptyStore s ∧
  ∀ k, headers_of (AddHeaders headers s emptyStore).2 (AddHeaders headers s emptyStore).1 !!! k =
       headers_of emptyStore s !!! k ++ mjoin (values_for k <$> headers).
Proof.
  intros s headers. split; [apply wf_sling_testSling|].
  apply (AddHeaders_appends headers s emptyStore), wf_sling_testSling.
Defined.

Lemma SetHeaders_values_later key i values s st :
  SetHeaders_values key (S i) values s st =
    foldl (λ acc value, Add key value acc.1 acc.2) (s, st) values.
Proof.
  revert i s st. induction values as [|v vs IH]; intros i s st; [done|].
  cbn [SetHeaders_values foldl fst snd]. destruct (Add key v s st) as [s1 st1].
  apply IH.
Qed.

(** The inner loop of [SetHeaders]. *)
Lemma Set_each key values s st :
  wf_sling st s →
  let r := SetHeaders_values key 0 values s st in
  keeps_builders s st r ∧
  ∀ k, headers_of r.2 r.1 !!! k = replaced_by k (headers_of st s !!! k) (key, values).
Proof.
  intros Hs r. subst r. destruct values as [|v vs].
  - split; [by apply keeps_builders_refl|]. intros k. unfold replaced_by. simpl.
    by case_decide.
  - cbn [SetHeaders_values].
    pose proof (Set_keeps key v s st Hs) as Hk.
    pose proof (λ k, Set_total key v s st k Hs) as Hv.
    destruct (Set_ key v s st) as [s1 st1] eqn:E. cbn [fst snd] in *.
    rewrite SetHeaders_values_later.
    destruct (Add_each key vs s1 st1 (proj1 Hk)) as [Hk' Hv'].
    split; [by eapply keeps_builders_trans|].
    intros k. rewrite Hv', Hv. unfold replaced_by, values_for. cbn [fst snd].
    case_decide; [done | by rewrite app_nil_r].
Qed.

(** X4. [SetHeaders] leaves under every canonical key the values of the
    last entry visited whose key has that canonical form and that has
    values; an entry without values changes nothing, it does not clear
    its key. *)
Theorem SetHeaders_replaces (headers : list (string * list string)) (s : Sling) (st : Store) :
  wf_sling st s →
  wf_sling (SetHeaders headers s st).2 (SetHeaders headers s st).1 ∧
  ∀ k, headers_of (SetHeaders headers s st).2 (SetHeaders headers s st).1 !!! k =
       foldl (replaced_by k) (headers_of st s !!! k) headers.
Proof.
  unfold SetHeaders. revert s st.
  induction headers as [|[key values] hs IH]; intros s st Hs; [done|].
  cbn [foldl fst snd].
  destruct (Set_each key values s st Hs) as [Hk Hv].
  destruct (SetHeaders_values key 0 values s st) as [s1 st1] eqn:E. cbn [fst snd] in *.
  destruct (IH s1 st1 (proj1 Hk)) as [Hw Hv']. split; [done|].
  intros k. by rewrite Hv', Hv.
Qed.

Lemma SetHeaders_replaces_witness :
  let s := testSling None None in
  let headers := [("accept", ["a"; "b"]); ("ACCEPT", [])] in
  wf_sling emptyStore s ∧
  ∀ k, headers_of (SetHeaders headers s emptyStore).2 (SetHeaders headers s emptyStore).1 !!! k =
       foldl (replaced_by k) (headers_of emptyStore s !!! k) headers.
Proof.
  intros s headers. split; [apply wf_sling_testSling|].
  apply (SetHeaders_replaces headers s emptyStore), wf_sling_testSling.
Defined.

Lemma header_copy (h : Header) : map_fold (λ k v (acc : Header), <[k := v]> acc) ∅ h = h.
Proof.
  rewrite map_fold_foldr. rewrite <- (list_to_map_to_list h) at 2.
  induction (map_to_list h) as [|[k v] l IH]; [done|]. simpl. by rewrite IH.
Qed.

Lemma Sling_New_eq s st :
  Sling_New s st =
    (mkSling (httpClient s) (method s) (rawURL s) (header s)
       (append (AnyPtr 0) (ifaces st) nil_slice (queries_of st s)).1
       (bodyProvider_ s) (responseDecoder s),
     mkStore (strings st) (append (AnyPtr 0) (ifaces st) nil_slice (queries_of st s)).2).
Proof. unfold Sling_New. rewrite header_copy. by destruct (append _ _ _ _). Qed.

Lemma keeps_builders_wf s st r : keeps_builders s st r → keeps_wf st r.
Proof. intros (H1 & H2 & H3 & _). by split. Qed.

Lemma keeps_wf_refl s st : wf_sling st s → keeps_wf st (s, st).
Proof. intros Hs. split; [done|]. split; apply store_grows_refl. Qed.

Lemma QueryStruct_keeps q s st : wf_sling st s → keeps_wf st (QueryStruct q s st).
Proof.
  intros [Hh Hq]. destruct q as [q|]; [|by apply keeps_wf_refl].
  destruct (QueryStruct_append q s st) as [E1 E2].
  destruct (append_elems (AnyPtr 0) (ifaces st) (queryStructs s) [q] Hq) as [_ Hwf].
  pose proof (append_grows (AnyPtr 0) (ifaces st) (queryStructs s) [q]) as Hg.
  assert (E3 : header (QueryStruct (Some q) s st).1 = header s ∧
               strings (QueryStruct (Some q) s st).2 = strings st).
  { unfold QueryStruct. by destruct (append _ _ _ _). }
  destruct E3 as [E3 E4]. unfold keeps_wf, wf_sling. rewrite E1, E2, E3, E4.
  split; [by split|]. split; [apply store_grows_refl | done].
Qed.

Lemma Sling_New_keeps s st : wf_sling st s → keeps_wf st (Sling_New s st).
Proof.
  intros [Hh Hq]. rewrite Sling_New_eq. unfold keeps_wf, wf_sling.
  cbn [fst snd header queryStructs strings ifaces].
  destruct (append_elems (AnyPtr 0) (ifaces st) nil_slice (queries_of st s)
              (wf_nil_slice _)) as [_ Hwf].
  split; [by split|]. split; [apply store_grows_refl | apply append_grows].
Qed.

Lemma BodyProvider_keeps body s st :
  wf_sling st s → keeps_wf st (Sling_BodyProvider body s st).
Proof.
  intros Hs. destruct body as [b|]; [|by apply keeps_wf_refl].
  unfold Sling_BodyProvider. destruct (negb _).
  - eapply keeps_builders_wf. by apply Set_keeps.
  - by apply keeps_wf_refl.
Qed.

Lemma AddHeaders_keeps headers s st :
  wf_sling st s → keeps_wf st (AddHeaders headers s st).
Proof.
  unfold AddHeaders. revert s st.
  induction headers as [|[key values] hs IH]; intros s st Hs; [by apply keeps_wf_refl|].
  cbn [foldl fst snd]. destruct (Add_each key values s st Hs) as [Hk _].
  destruct (foldl (λ acc value, Add key value acc.1 acc.2) (s, st) values) as [s1 st1].
  destruct Hk as (H1 & H2 & H3 & _). cbn [fst snd] in *.
  destruct (IH s1 st1 H1) as (I1 & I2 & I3).
  split; [done|]. split; by eapply store_grows_trans.
Qed.

Lemma SetHeaders_keeps headers s st :
  wf_sling st s → keeps_wf st (SetHeaders headers s st).
Proof.
  unfold SetHeaders. revert s st.
  induction headers as [|[key values] hs IH]; intros s st Hs; [by apply keeps_wf_refl|].
  cbn [foldl fst snd]. destruct (Set_each key values s st Hs) as [Hk _].
  destruct (SetHeaders_values key 0 values s st) as [s1 st1].
  destruct Hk as (H1 & H2 & H3 & _). cbn [fst snd] in *.
  destruct (IH s1 st1 H1) as (I1 & I2 & I3).
  split; [done|]. split; by eapply store_grows_trans.
Qed.

Lemma apply_op_keeps o p : wf_sling p.2 p.1 → keeps_wf p.2 (apply_op p o).
Proof.
  destruct p as [s st]. intros Hs. destruct o; cbn [apply_op fst snd].
  - eapply keeps_builders_wf. by apply Add_keeps.
  - eapply keeps_builders_wf. by apply Set_keeps.
  - by apply AddHeaders_keeps.
  - by apply SetHeaders_keeps.
  - by apply QueryStruct_keeps.
  - destruct values; [by apply (QueryStruct_keeps (Some _)) | by apply keeps_wf_refl].
  - by apply BodyProvider_keeps.
  - by apply Sling_New_keeps.
Qed.

(** X5. whatever mutators and clonings a builder goes through, starting
    from [New()], and whatever builders it leaves behind on the way, the
    builder and all those it left behind are well formed: in each of
    them the values of two different header keys never share a backing
    array. *)
Theorem builders_stay_well_formed `{NetLib} (ops : list builder_op) :
  ∀ n, wf_sling (foldl apply_op (New, emptyStore) ops).2
               (foldl apply_op (New, emptyStore) (take n ops)).1.
Proof.
  assert (Hgen : ∀ ops p, wf_sling p.2 p.1 →
            wf_sling (foldl apply_op p ops).2 (foldl apply_op p ops).1 ∧
            ∀ t, wf_sling p.2 t → wf_sling (foldl apply_op p ops).2 t).
  { clear ops. induction ops as [|o ops IH]; intros p Hp; [done|].
    cbn [foldl]. destruct (apply_op_keeps o p Hp) as (H1 & H2 & H3).
    destruct (IH _ H1) as [I1 I2]. split; [done|].
    intros t Ht. apply I2. by eapply wf_sling_grows. }
  intros n. rewrite <- (take_drop n ops) at 1. rewrite foldl_app.
  destruct (Hgen (take n ops) (New, emptyStore) (wf_sling_New _)) as [H1 _].
  destruct (Hgen (drop n ops) _ H1) as [_ H2]. by apply H2.
Qed.

(** ** Cloning, body providers and the method setters *)

(** X6. [s.New()] gives a builder with the header values, the query
    sources, the method, the raw URL, the body provider, the decoder and
    the transport of [s], and leaves what [s] holds as it is. *)
Theorem New_copies_builder (s : Sling) (st : Store) :
  wf_slice (ifaces st) (queryStructs s) →
  let r := Sling_New s st in
  headers_of r.2 r.1 = headers_of st s ∧
  queries_of r.2 r.1 = queries_of st s ∧
  method r.1 = method s ∧ rawURL r.1 = rawURL s ∧
  bodyProvider_ r.1 = bodyProvider_ s ∧
  responseDecoder r.1 = responseDecoder s ∧ httpClient r.1 = httpClient s ∧
  headers_of r.2 s = headers_of st s ∧
  queries_of r.2 s = queries_of st s.
Proof.
  intros Hq r. destruct (Sling_New_queries s st Hq) as (_ & E1 & E2).
  subst r. split; [|split; [done|]].
  - rewrite Sling_New_eq. done.
  - rewrite Sling_New_eq in *. cbn [fst snd] in *. done.
Qed.

Lemma New_copies_builder_witness :
  let s := threeValues.1 in
  let st := threeValues.2 in
  wf_slice (ifaces st) (queryStructs s) ∧
  headers_of (Sling_New s st).2 (Sling_New s st).1 !! "K" = Some ["a"; "b"; "c"].
Proof.
  intros s st.
  assert (Hq : wf_slice (ifaces st) (queryStructs s)) by (split; [done | by left]).
  split; [exact Hq|].
  destruct (New_copies_builder s st Hq) as (-> & _). reflexivity.
Defined.

(** X7. [BodyProvider(p)] with a non-nil provider makes [p] the body
    provider of the builder, whatever provider it had. If the content
    type of [p] is empty the headers stay as they are; otherwise
    [Content-Type] has that one value, whatever values it had, and the
    other keys keep theirs. *)
Theorem BodyProvider_sets_content_type (ct : string) (body : io_Reader + error)
  (s : Sling) (st : Store) :
  wf_sling st s →
  let r := Sling_BodyProvider (Some (customBodyProvider ct body)) s st in
  bodyProvider_ r.1 = Some (customBodyProvider ct body) ∧
  headers_of r.2 r.1 =
    if decide (ct = EmptyString) then headers_of st s
    else <["Content-Type" := [ct]]> (headers_of st s).
Proof.
  intros [Hh Hq] r. subst r. unfold Sling_BodyProvider. cbn [ContentType].
  destruct (decide (ct = EmptyString)) as [->|Hne]; [done|].
  rewrite (proj2 (String.eqb_neq _ _) Hne). cbn [negb].
  assert (Hs' : wf_sling st (set_bodyProvider (Some (customBodyProvider ct body)) s))
    by (by split).
  destruct (Set_headers contentType ct _ st Hs') as [Hv _].
  rewrite canonical_Content_Type in Hv. split; [|exact Hv].
  rewrite Set_eq. done.
Qed.

Lemma BodyProvider_sets_content_type_witness :
  let s := testSling None None in
  let r := Sling_BodyProvider
             (Some (customBodyProvider "text/plain" (inl (mkReader "hi" [] io_EOF))))
             s emptyStore in
  wf_sling emptyStore s ∧
  headers_of r.2 r.1 = <["Content-Type" := ["text/plain"]]> (headers_of emptyStore s).
Proof.
  intros s r.
  assert (Hs : wf_sling emptyStore s) by (split; [apply wf_header_empty | apply wf_nil_slice]).
  split; [exact Hs|].
  exact (proj2 (BodyProvider_sets_content_type "text/plain"
                  (inl (mkReader "hi" [] io_EOF)) s emptyStore Hs)).
Defined.

Section PathFacts.
Context `{NetLib}.

Lemma Path_keeps_fields path s :
  method (Path path s) = method s ∧ header (Path path s) = header s ∧
  queryStructs (Path path s) = queryStructs s ∧
  bodyProvider_ (Path path s) = bodyProvider_ s ∧
  responseDecoder (Path path s) = responseDecoder s ∧
  httpClient (Path path s) = httpClient s.
Proof.
  unfold Path. by destruct (url_Parse (rawURL s)), (url_Parse path).
Qed.

Lemma Path_rawURL path s :
  rawURL (Path path s) =
    match url_Parse (rawURL s), url_Parse path with
    | inl baseURL, inl pathURL => URL_String (URL_ResolveReference baseURL pathURL)
    | _, _ => rawURL s
    end.
Proof.
  unfold Path. by destruct (url_Parse (rawURL s)), (url_Parse path).
Qed.

(** X8. the method setters set the method whether or not the path can be
    resolved: after [Get(p)], [Post(p)], ... the method is the one of
    the setter, the raw URL is the resolved one if both the raw URL and
    [p] parse and the old one otherwise, and the headers, query sources,
    body provider, decoder and transport are as before. *)
Theorem method_setters_set_method (pathURL : string) (s : Sling) :
  Forall (λ setter : string * (string → Sling → Sling),
            let s' := setter.2 pathURL s in
            method s' = setter.1 ∧
            rawURL s' = rawURL (Path pathURL s) ∧
            header s' = header s ∧ queryStructs s' = queryStructs s ∧
            bodyProvider_ s' = bodyProvider_ s ∧
            responseDecoder s' = responseDecoder s ∧ httpClient s' = httpClient s)
    [("HEAD", Head); ("GET", Get); ("POST", Post); ("PUT", Put); ("PATCH", Patch);
     ("DELETE", Delete); ("OPTIONS", Options); ("TRACE", Trace); ("CONNECT", Connect)].
Proof.
  assert (Hm : ∀ m, let s' := Path pathURL (set_method m s) in
            method s' = m ∧ rawURL s' = rawURL (Path pathURL s) ∧
            header s' = header s ∧ queryStructs s' = queryStructs s ∧
            bodyProvider_ s' = bodyProvider_ s ∧
            responseDecoder s' = responseDecoder s ∧ httpClient s' = httpClient s).
  { intros m s'. subst s'.
    destruct (Path_keeps_fields pathURL (set_method m s)) as (-> & -> & -> & -> & -> & ->).
    rewrite !Path_rawURL. done. }
  repeat constructor; apply Hm.
Qed.
End PathFacts.

(** ** The dispatcher: draining, closing and the status line *)

(** X9. when the transport returns a response and no error, [doDecode]
    returns the summary of that response, and the last things done to
    the response are the draining and the closing of its body, on every
    path, also when decoding fails. Before them the decoder is called at
    most once: with the success destination on a status in [200,299],
    with the failure destination otherwise. *)
Theorem doDecode_drains_and_closes (s : Sling) (req : Request) (resp : http_Response)
  (successV failureV : option any) :
  httpClient s req = (Some resp, None) →
  ∃ r err evs,
    newResponse (Some resp) = Ret r ∧
    doDecode s req successV failureV = Ret (r, err, evs ++ [EvDrain; EvClose]) ∧
    (evs = [] ∨
     ∃ v, evs = [EvDecode v] ∧ err = responseDecoder s resp v ∧
          if isSuccessful (StatusCode resp) then successV = Some v else failureV = Some v).
Proof.
  intros E. unfold doDecode, StatusNoContent. rewrite (do_no_error _ _ _ E).
  cbn [newResponse]. eexists.
  destruct (StatusCode resp =? 204)%Z; [eexists _, []; by repeat split; try left|].
  destruct (ContentLength resp =? 0)%Z.
  { destruct (is_nil failureV && negb (isSuccessful (StatusCode resp)));
      eexists _, []; by repeat split; try left. }
  destruct (negb (is_nil successV) || negb (is_nil failureV));
    [|eexists _, []; by repeat split; try left].
  unfold decodeResponse. destruct (isSuccessful (StatusCode resp)) eqn:Hs.
  - destruct successV as [v|]; [|eexists _, []; by repeat split; try left].
    eexists _, [EvDecode v]. split; [done|]. split; [done|]. right. by exists v.
  - destruct failureV as [v|].
    + eexists _, [EvDecode v]. split; [done|]. split; [done|]. right. by exists v.
    + destruct (readWithCap _ _); eexists _, []; by repeat split; try left.
Qed.

Lemma doDecode_drains_and_closes_witness :
  let resp := testResponse 200 2 "{}" in
  let s := testSling (Some resp) None in
  let req := testRequest context_Background in
  httpClient s req = (Some resp, None) ∧
  ∃ r err evs,
    newResponse (Some resp) = Ret r ∧
    doDecode s req (Some (AnyPtr 1)) None = Ret (r, err, evs ++ [EvDrain; EvClose]).
Proof.
  intros resp s req. split; [reflexivity|].
  destruct (doDecode_drains_and_closes s req resp (Some (AnyPtr 1)) None eq_refl)
    as (r & err & evs & Hr & Hd & _).
  by exists r, err, evs.
Defined.

(** X10. with both destinations nil and a declared content length other
    than zero, [doDecode] returns a nil error for every status, also
    outside [200,299]: it calls no decoder and only drains and closes
    the body. *)
Theorem doDecode_without_destinations (s : Sling) (req : Request) (resp : http_Response) :
  httpClient s req = (Some resp, None) →
  ContentLength resp ≠ 0%Z →
  ∃ r, newResponse (Some resp) = Ret r ∧
       doDecode s req None None = Ret (r, None, [EvDrain; EvClose]).
Proof.
  intros E Hl. eexists. split; [reflexivity|].
  unfold doDecode, StatusNoContent. rewrite (do_no_error _ _ _ E). cbn [newResponse].
  destruct (StatusCode resp =? 204)%Z; [done|].
  by rewrite (proj2 (Z.eqb_neq _ _) Hl).
Qed.

Lemma doDecode_without_destinations_witness :
  let resp := testResponse 500 (-1) "internal error" in
  let s := testSling (Some resp) None in
  let req := testRequest context_Background in
  httpClient s req = (Some resp, None) ∧ ContentLength resp ≠ 0%Z ∧
  ∃ r, newResponse (Some resp) = Ret r ∧
       doDecode s req None None = Ret (r, None, [EvDrain; EvClose]).
Proof.
  intros resp s req. split; [reflexivity|]. split; [discriminate|].
  apply (doDecode_without_destinations s req resp); [reflexivity | discriminate].
Defined.

Section DoFacts.
Context `{NetLib}.

Lemma isSuccessful_range code :
  isSuccessful code = negb ((code <? 200)%Z || (300 <=? code)%Z).
Proof.
  unfold isSuccessful.
  destruct (Z.leb_spec 200 code), (Z.leb_spec code 299), (Z.ltb_spec code 200),
    (Z.leb_spec 300 code); simpl; try reflexivity; lia.
Qed.

(** X11. [Do] and [Receive] draw the same line: when the transport
    returns a response and no error, [Do] returns the response, with a
    nil error exactly when [isSuccessful] holds of the status and with
    the error [status code <code> was not successful] otherwise. *)
Theorem Do_checks_status (ctx : Context) (s : Sling) (st : Store) (req : Request)
  (resp : http_Response) :
  requestWithContext ctx s st = inl req →
  httpClient s req = (Some resp, None) →
  Sling_Do ctx s st =
    Ret (Some resp,
         if isSuccessful (StatusCode resp) then None
         else Some (errorString ("status code " +:+ fmt_d (StatusCode resp) +:+
                                 " was not successful"))).
Proof.
  intros Er E. unfold Sling_Do. rewrite Er, (do_no_error _ _ _ E).
  rewrite isSuccessful_range. by destruct (_ || _).
Qed.
End DoFacts.

Lemma Do_checks_status_witness :
  let resp := testResponse 404 0 "" in
  let s := testSling (Some resp) None in
  let req := testRequest context_Background in
  requestWithContext (H := testLib) context_Background s emptyStore = inl req ∧
  httpClient s req = (Some resp, None) ∧
  Sling_Do (H := testLib) context_Background s emptyStore =
    Ret (Some resp, Some (errorString "status code 404 was not successful")).
Proof.
  intros resp s req.
  assert (E1 : requestWithContext (H := testLib) context_Background s emptyStore = inl req)
    by (vm_compute; reflexivity).
  split; [exact E1|]. split; [reflexivity|].
  exact (Do_checks_status (H := testLib) context_Background s emptyStore req resp E1 eq_refl).
Defined.

(** ** io.ReadFull on a stream that breaks *)

(** The loop of [ReadAtLeast] on a stream of any kind: the first [N]
    bytes, or all of them and then the error the stream ends with. *)
Lemma ReadAtLeast_loop_reads_any (N fuel : nat) (r : io_Reader) (got : string) :
  String.length got ≤ N →
  N - String.length got < fuel →
  let res := ReadAtLeast_loop fuel r N N got None in
  res.1.1 = string_take N (got +:+ pending r) ∧
  res.1.2 = if N <=? String.length (got +:+ pending r) then None else Some (final_err r).
Proof.
  revert r got. induction fuel as [|fuel IH]; intros r got Hg Hfuel; [lia|].
  cbn [ReadAtLeast_loop]. rewrite bool_decide_eq_true_2 by done. rewrite andb_true_r.
  destruct (Nat.ltb_spec (String.length got) N) as [Hlt|Hge].
  - destruct (decide (pending r = EmptyString)) as [Hp|Hp].
    + rewrite Read_exhausted by (done || lia).
      rewrite ReadAtLeast_loop_stops by done. cbn [fst snd].
      rewrite Hp, !string_app_empty_r. split.
      * rewrite string_take_all; [done | lia].
      * destruct (Nat.leb_spec N (String.length got)); [lia | done].
    + destruct (Read_progress r (N - String.length got)) as (k & Hk0 & Hkn & ->);
        [lia | done |].
      assert (Hlen : 0 < String.length (string_take k (pending r))).
      { rewrite string_length_take. destruct (pending r); [done | simpl; lia]. }
      assert (Hlen' : String.length (string_take k (pending r)) ≤ k).
      { rewrite string_length_take. lia. }
      specialize (IH (mkReader (string_drop k (pending r)) (tail (portions r)) (final_err r))
                     (got +:+ string_take k (pending r))).
      cbn [pending final_err] in IH. rewrite string_app_assoc, string_take_drop in IH.
      apply IH; rewrite string_length_app; lia.
  - cbn [fst snd]. split.
    + rewrite string_take_app_l by lia. rewrite string_take_all; [done | lia].
    + rewrite string_length_app.
      destruct (Nat.leb_spec N (String.length got + String.length (pending r))); [done | lia].
Qed.

Lemma io_ReadFull_reads_any (r : io_Reader) (N : nat) :
  0 < N →
  (io_ReadFull r N).1.1 = string_take N (pending r) ∧
  (io_ReadFull r N).1.2 =
    if N <=? String.length (pending r) then None
    else if (0 <? String.length (pending r)) && bool_decide (final_err r = io_EOF)
         then Some io_ErrUnexpectedEOF
         else Some (final_err r).
Proof.
  intros HN. unfold io_ReadFull.
  destruct (ReadAtLeast_loop_reads_any N (S N) r EmptyString) as [H1 H2];
    [simpl; lia | simpl; lia |].
  destruct (ReadAtLeast_loop (S N) r N N EmptyString None) as [[got err] r'].
  cbn [fst snd] in H1, H2. rewrite string_app_empty_l in H1, H2. subst got err.
  rewrite string_length_take.
  destruct (Nat.leb_spec N (String.length (pending r))) as [Hle|Hgt].
  - rewrite Nat.min_l by done. by rewrite Nat.leb_refl.
  - rewrite Nat.min_r by lia.
    destruct (Nat.leb_spec N (String.length (pending r))); [lia|].
    destruct (0 <? String.length (pending r)); [|done]. cbn [andb].
    destruct (decide (final_err r = io_EOF)) as [->|Hne].
    + by rewrite !bool_decide_eq_true_2.
    + rewrite !bool_decide_eq_false_2; [done | done | congruence].
Qed.

(** X12. a response outside [200,299], decoded with a nil failure
    destination. If its body fails with an error within its first 100
    bytes, or ends without a single byte, the error of [decodeResponse]
    wraps the error of the body (io.EOF for the empty body) behind
    [status code <code> was not successful and could not get body: ],
    unless that error is io.ErrUnexpectedEOF. If the body delivers more
    than 100 bytes before it fails, the failure is not seen and the
    excerpt is reported as for a body that ends well. *)
Theorem decodeResponse_body_failure (resp : http_Response) (decoder : ResponseDecoder)
  (successV : option any) :
  isSuccessful (StatusCode resp) = false →
  (String.length (pending (Body resp)) ≤ 100 →
   final_err (Body resp) ≠ io_EOF ∨ pending (Body resp) = EmptyString →
   errors_Is (final_err (Body resp)) io_ErrUnexpectedEOF = false →
   decodeResponse resp decoder successV None =
     (Some (wrapError ("status code " +:+ fmt_d (StatusCode resp) +:+
                       " was not successful and could not get body: ")
              (final_err (Body resp))), [])) ∧
  (100 < String.length (pending (Body resp)) →
   decodeResponse resp decoder successV None =
     (Some (errorString ("status code " +:+ fmt_d (StatusCode resp) +:+
                         " was not successful, got body: " +:+
                         string_take 100 (pending (Body resp)) +:+ " (truncated)")), [])).
Proof.
  intros Hs. unfold decodeResponse, readWithCap. rewrite Hs.
  destruct (io_ReadFull_reads_any (Body resp) (100 + 1)) as [H1 H2]; [lia|].
  destruct (io_ReadFull (Body resp) (100 + 1)) as [[buf err] r'].
  cbn [fst snd] in H1, H2. subst buf err. split.
  - intros Hl Hor Hun.
    destruct (Nat.leb_spec (100 + 1) (String.length (pending (Body resp)))); [lia|].
    assert (Hb : (0 <? String.length (pending (Body resp))) &&
                 bool_decide (final_err (Body resp) = io_EOF) = false).
    { destruct Hor as [Hne| ->]; [|done].
      rewrite (bool_decide_eq_false_2 _ Hne). apply andb_false_r. }
    rewrite Hb, Hun. done.
  - intros Hl.
    destruct (Nat.leb_spec (100 + 1) (String.length (pending (Body resp)))); [|lia].
    rewrite string_length_take, Nat.min_l by lia.
    rewrite string_take_take by lia. reflexivity.
Qed.

Lemma decodeResponse_body_failure_witness :
  let reset := errorString "connection reset by peer" in
  let empty := testResponse 502 (-1) "" in
  let short := testBrokenResponse 502 (testBody 50) reset in
  let long := testBrokenResponse 502 (testBody 150) reset in
  (isSuccessful (StatusCode empty) = false ∧
   String.length (pending (Body empty)) ≤ 100 ∧
   pending (Body empty) = EmptyString ∧
   errors_Is (final_err (Body empty)) io_ErrUnexpectedEOF = false ∧
   decodeResponse empty (λ _ _, None) None None =
     (Some (wrapError "status code 502 was not successful and could not get body: " io_EOF),
      [])) ∧
  (isSuccessful (StatusCode short) = false ∧
   String.length (pending (Body short)) ≤ 100 ∧
   final_err (Body short) ≠ io_EOF ∧
   errors_Is (final_err (Body short)) io_ErrUnexpectedEOF = false ∧
   decodeResponse short (λ _ _, None) None None =
     (Some (wrapError "status code 502 was not successful and could not get body: " reset),
      [])) ∧
  (isSuccessful (StatusCode long) = false ∧
   100 < String.length (pending (Body long)) ∧
   decodeResponse long (λ _ _, None) None None =
     (Some (errorString ("status code 502 was not successful, got body: " +:+
                         testBody100 +:+ " (truncated)")), [])).
Proof.
  intros reset empty short long. split; [|split].
  - split; [reflexivity|]. split; [simpl; lia|].
    split; [reflexivity|]. split; [reflexivity|].
    apply (proj1 (decodeResponse_body_failure empty (λ _ _, None) None eq_refl));
      [simpl; lia | by right | reflexivity].
  - split; [reflexivity|]. split; [simpl; lia|].
    split; [done|]. split; [reflexivity|].
    apply (proj1 (decodeResponse_body_failure short (λ _ _, None) None eq_refl));
      [simpl; lia | by left | reflexivity].
  - split; [reflexivity|]. split; [simpl; lia|].
    apply (proj2 (decodeResponse_body_failure long (λ _ _, None) None eq_refl)).
    simpl; lia.
Defined.

(** ** The query aggregator: order of the entries, and errors *)

Lemma Values_Add_total (key value : string) (v : Values) :
  Values_Add key value v = <[key := v !!! key ++ [value]]> v.
Proof. unfold Values_Add. by rewrite lookup_total_alt. Qed.

Lemma Values_Add_each_lookup (key k : string) (values : list string) (v : Values) :
  foldl (λ acc value, Values_Add key value acc) v values !! k =
    match values with
    | [] => v !! k
    | _ => if decide (key = k) then Some (v !!! key ++ values) else v !! k
    end.
Proof.
  revert v. induction values as [|x xs IH]; intros v; [done|].
  cbn [foldl]. rewrite IH. rewrite !Values_Add_total.
  destruct (decide (key = k)) as [->|Hne].
  - destruct xs as [|y ys].
    + by rewrite lookup_insert_eq.
    + f_equal. rewrite (lookup_total_alt (<[_:=_]> _)), lookup_insert_eq. cbn [default id].
      by rewrite <- app_assoc.
  - destruct xs; by rewrite lookup_insert_ne.
Qed.

Lemma add_entries_lookup (entries : list (string * list string)) (v : Values) (k : string) :
  NoDup entries.*1 →
  add_entries entries v !! k =
    match (list_to_map entries : Values) !! k with
    | Some (x :: xs) => Some (v !!! k ++ x :: xs)
    | _ => v !! k
    end.
Proof.
  unfold add_entries. revert v.
  induction entries as [|[k0 vs0] l IH]; intros v Hnd; [done|].
  rewrite fmap_cons in Hnd. apply NoDup_cons in Hnd as [Hk0 Hnd].
  cbn [foldl fst snd]. rewrite IH by done. cbn [list_to_map foldr uncurry fst snd].
  destruct (decide (k0 = k)) as [->|Hne].
  - rewrite lookup_insert_eq.
    rewrite (proj1 (not_elem_of_list_to_map l k) Hk0).
    rewrite Values_Add_each_lookup. destruct vs0; [done|]. by rewrite decide_True.
  - rewrite lookup_insert_ne by done.
    assert (Hk : foldl (λ acc value, Values_Add k0 value acc) v vs0 !! k = v !! k).
    { rewrite Values_Add_each_lookup. destruct vs0; [done|]. by rewrite decide_False. }
    by rewrite Hk, !lookup_total_alt, Hk.
Qed.

(** X13. the map that [addQueryStructs] builds from a source does not
    depend on the order in which [range] visits the entries of the
    source map: every order gives the map of [add_values]. *)
Theorem add_values_any_order (queryValues urlValues : Values)
  (entries : list (string * list string)) :
  entries ≡ₚ map_to_list queryValues →
  add_entries entries urlValues = add_values queryValues urlValues.
Proof.
  intros Hp. apply map_eq. intros k.
  assert (Hnd : NoDup entries.*1).
  { rewrite Hp. apply NoDup_fst_map_to_list. }
  change (add_values queryValues urlValues)
    with (add_entries (map_to_list queryValues) urlValues).
  rewrite !add_entries_lookup by (done || apply NoDup_fst_map_to_list).
  by rewrite (list_to_map_proper _ _ Hnd Hp).
Qed.

Lemma add_values_any_order_witness :
  let q : Values := {["b" := ["2"]; "a" := ["1"; "3"]]} in
  let entries := reverse (map_to_list q) in
  entries ≡ₚ map_to_list q ∧
  add_entries entries {["a" := ["0"]]} = add_values q {["a" := ["0"]]}.
Proof.
  intros q entries.
  assert (Hp : entries ≡ₚ map_to_list q) by apply reverse_Permutation.
  split; [exact Hp|]. exact (add_values_any_order q _ entries Hp).
Defined.

Section SourceFacts.
Context `{NetLib}.

(** X14. [addQueryStructs] stops at the first query source the encoder
    rejects and returns its error, whatever sources come after it; the
    query of the URL is not changed. A query of the URL that
    [url.ParseQuery] rejects is returned as an error before any source
    is looked at. *)
Theorem addQueryStructs_first_error (reqURL : URL) (before after : list any)
  (vs : list Values) (bad : any) (err : error) :
  Forall2 (λ q v, query_values_of q = inl v) before vs →
  query_values_of bad = inr err →
  (∀ existing, ParseQuery (RawQuery reqURL) = (existing, None) →
     addQueryStructs reqURL (before ++ bad :: after) = inr err) ∧
  (∀ partial perr, ParseQuery (RawQuery reqURL) = (partial, Some perr) →
     addQueryStructs reqURL (before ++ bad :: after) = inr perr).
Proof.
  intros HF Hbad. split.
  - intros existing Hp. unfold addQueryStructs. rewrite Hp.
    assert (Hs : ∀ m, add_sources m (before ++ bad :: after) = inr err).
    { induction HF as [|q v qs vs' Hq HF IH]; intros m; simpl.
      - by rewrite Hbad.
      - rewrite Hq. apply IH. }
    by rewrite Hs.
  - intros partial perr Hp. unfold addQueryStructs. by rewrite Hp.
Qed.
End SourceFacts.

Lemma addQueryStructs_first_error_witness :
  let before := [AnyValues {["a" := ["1"]]}] in
  Forall2 (λ q v, query_values_of (H := testLib) q = inl v) before [{["a" := ["1"]]}] ∧
  (∃ err, query_values_of (H := testLib) (AnyPtr 7) = inr err ∧
   addQueryStructs (H := testLib) testQueryURL (before ++ AnyPtr 7 :: [AnyValues ∅])
   = inr err).
Proof.
  intros before.
  assert (HF : Forall2 (λ q v, query_values_of (H := testLib) q = inl v) before
                 [{["a" := ["1"]]}]) by (repeat constructor).
  split; [exact HF|]. eexists. split; [reflexivity|].
  eapply (proj1 (addQueryStructs_first_error (H := testLib) testQueryURL before
                   [AnyValues ∅] _ (AnyPtr 7) _ HF eq_refl)).
  vm_compute. reflexivity.
Defined.

(** ** The traced body seen from its caller; the request *)

Section TracedBodyMore.
Context {B T : Type} `{TracedBody.ReadCloser B} `{TracedBody.Tracer T}.
Implicit Types (b : TracedBody.bodyWithTracer B T).

(** X15. the traced body hands on what the wrapped body returns, except
    in the call that ends the trace when [EndTrace] fails: then [Read]
    returns the wrapped error of [EndTrace] and a count of 0, whatever
    count the wrapped body returned with its [io.EOF], and [Close]
    returns the wrapped error of [EndTrace]. An error of the wrapped
    [Close] is always returned as it is. *)
Theorem traced_body_is_transparent b p :
  (TracedBody.Read b p).1 =
    match (if negb (TracedBody.hasEnded b) &&
              bool_decide ((TracedBody.rc_Read (TracedBody.body b) p).1.2 = Some io_EOF)
           then (TracedBody.EndTrace (TracedBody.ctx b) (TracedBody.tracer b)).1
           else None) with
    | Some e =>
        (0, Some (wrapError "got io.EOF and then error while trying to end trace: " e))
    | None => (TracedBody.rc_Read (TracedBody.body b) p).1
    end ∧
  (TracedBody.Close b).1 =
    match (TracedBody.rc_Close (TracedBody.body b)).1 with
    | Some e => Some e
    | None =>
        match (if TracedBody.hasEnded b then None
               else (TracedBody.EndTrace (TracedBody.ctx b) (TracedBody.tracer b)).1) with
        | Some e => Some (wrapError "got error while trying to end trace: " e)
        | None => None
        end
    end ∧
  TracedBody.body (TracedBody.Read b p).2 = (TracedBody.rc_Read (TracedBody.body b) p).2 ∧
  TracedBody.body (TracedBody.Close b).2 = (TracedBody.rc_Close (TracedBody.body b)).2.
Proof.
  unfold TracedBody.Read, TracedBody.Close, TracedBody.endTrace.
  destruct (TracedBody.rc_Read _ _) as [[n err] body'].
  destruct (TracedBody.rc_Close _) as [cerr body''].
  cbn [fst snd TracedBody.hasEnded TracedBody.ctx TracedBody.tracer TracedBody.body].
  destruct (TracedBody.hasEnded b), (TracedBody.EndTrace _ _) as [[e|] t'],
    cerr as [ce|]; cbn [negb andb]; case_bool_decide; cbn [fst snd TracedBody.body]; done.
Qed.
End TracedBodyMore.

Lemma QueryValues_as_QueryStruct values s st :
  QueryValues values s st = QueryStruct (AnyValues <$> values) s st.
Proof. by destruct values. Qed.

Lemma QueryStruct_each (qs : list (option any)) (s : Sling) (st : Store) :
  wf_sling st s →
  let r := foldl (λ p q, QueryStruct q p.1 p.2) (s, st) qs in
  wf_sling r.2 r.1 ∧
  queries_of r.2 r.1 = queries_of st s ++ omap id qs ∧
  headers_of r.2 r.1 = headers_of st s ∧
  method r.1 = method s ∧ rawURL r.1 = rawURL s ∧ bodyProvider_ r.1 = bodyProvider_ s.
Proof.
  revert s st. induction qs as [|q qs IH]; intros s st Hs r.
  - subst r. simpl. by rewrite app_nil_r.
  - subst r. cbn [foldl fst snd].
    pose proof (QueryStruct_keeps q s st Hs) as (Hw & _ & _).
    assert (E : queries_of (QueryStruct q s st).2 (QueryStruct q s st).1 =
                  queries_of st s ++ omap id [q] ∧
                header (QueryStruct q s st).1 = header s ∧
                strings (QueryStruct q s st).2 = strings st ∧
                method (QueryStruct q s st).1 = method s ∧
                rawURL (QueryStruct q s st).1 = rawURL s ∧
                bodyProvider_ (QueryStruct q s st).1 = bodyProvider_ s).
    { destruct q as [q|]; [|simpl; by rewrite app_nil_r].
      split; [by apply QueryStruct_appends, Hs|].
      unfold QueryStruct. by destruct (append _ _ _ _). }
    destruct (QueryStruct q s st) as [s1 st1]. cbn [fst snd] in *.
    destruct (IH _ _ Hw) as (I1 & I2 & I3 & I4 & I5 & I6).
    destruct E as (E0 & E1 & E2 & E3 & E4 & E5).
    split; [done|]. rewrite I2, I3, I4, I5, I6, E0, E3, E4, E5, <- app_assoc.
    unfold headers_of. rewrite E1, E2. by destruct q.
Qed.

(** X16. after any number of calls of [QueryStruct], the query sources of
    the builder are the ones it had followed by the non-nil arguments,
    in the order of the calls; a nil argument adds nothing; the header
    values, the method, the raw URL and the body provider stay. *)
Theorem query_sources_accumulate (qs : list (option any)) (s : Sling) (st : Store) :
  wf_sling st s →
  let r := foldl (λ p q, QueryStruct q p.1 p.2) (s, st) qs in
  queries_of r.2 r.1 = queries_of st s ++ omap id qs ∧
  headers_of r.2 r.1 = headers_of st s ∧
  method r.1 = method s ∧ rawURL r.1 = rawURL s ∧ bodyProvider_ r.1 = bodyProvider_ s.
Proof. intros Hs. by destruct (QueryStruct_each qs s st Hs) as (_ & ?). Qed.

Lemma query_sources_accumulate_witness :
  let qs := [Some (AnyValues {["a" := ["1"]]}); None; Some (AnyPtr 3)] in
  let r := foldl (λ p q, QueryStruct q p.1 p.2) (testSling None None, emptyStore) qs in
  wf_sling emptyStore (testSling None None) ∧
  queries_of r.2 r.1 = [AnyValues {["a" := ["1"]]}; AnyPtr 3].
Proof.
  intros qs r.
  assert (Hs : wf_sling emptyStore (testSling None None))
    by (split; [apply wf_header_empty | apply wf_nil_slice]).
  split; [exact Hs|].
  exact (proj1 (query_sources_accumulate qs (testSling None None) emptyStore Hs)).
Defined.

Section RequestFacts.
Context `{NetLib}.

(** X17. a builder without query sources and without a body provider is
    given the sources [vs] by [QueryValues], one call each. If its raw
    URL parses and has a query that parses, [Request] creates the request
    for the URL whose query is the encoding of the existing values of
    every key followed by its values in [vs], in the order of the
    calls, and then adds the headers of the builder. *)
Theorem Request_carries_query_values (ctx : Context) (s : Sling) (st : Store)
  (vs : list Values) (reqURL : URL) (existing : Values) :
  wf_sling st s →
  queries_of st s = [] →
  bodyProvider_ s = None →
  url_Parse (rawURL s) = inl reqURL →
  ParseQuery (RawQuery reqURL) = (existing, None) →
  let r := foldl (λ p v, QueryValues (Some v) p.1 p.2) (s, st) vs in
  ∃ merged,
    (∀ k, merged !!! k = existing !!! k ++ mjoin ((λ v : Values, v !!! k) <$> vs)) ∧
    requestWithContext ctx r.1 r.2 =
      match http_NewRequestWithContext ctx (method s)
              (URL_String (set_RawQuery (Values_Encode merged) reqURL)) None with
      | inl req => inl (addHeaders req (headers_of st s))
      | inr err => inr err
      end.
Proof.
  intros Hs Hq Hb Hu Hp. cbv zeta.
  assert (Er : foldl (λ p v, QueryValues (Some v) p.1 p.2) (s, st) vs =
               foldl (λ p q, QueryStruct q p.1 p.2) (s, st) (Some ∘ AnyValues <$> vs)).
  { by rewrite foldl_fmap. }
  rewrite Er.
  destruct (QueryStruct_each (Some ∘ AnyValues <$> vs) s st Hs)
    as (_ & E1 & E2 & E3 & E4 & E5).
  cbv zeta in E1, E2, E3, E4, E5.
  assert (Eo : omap id (Some ∘ AnyValues <$> vs) = AnyValues <$> vs).
  { clear. induction vs as [|v vs IH]; [done|]. simpl. by f_equal. }
  rewrite Hq, Eo in E1. cbn [app] in E1.
  assert (HF : Forall2 (λ q v, query_values_of q = inl v) (AnyValues <$> vs) vs).
  { clear. induction vs; constructor; done. }
  destruct (add_sources_lookup _ vs existing HF) as (merged & Hm & Hl).
  exists merged. split; [done|].
  unfold requestWithContext, addQueryStructs.
  rewrite E4, Hu, E1, Hp, Hm, E5, Hb, E3, E2. done.
Qed.

(** X18. [addHeaders] adds to every key of the request the values the
    builder holds for it, after the values the request has already, and
    leaves the rest of the request as it is. *)
Theorem addHeaders_appends (req : Request) (header : gmap string (list string)) :
  (∀ k, is_Some (header !! k) → CanonicalMIMEHeaderKey k = k) →
  (∀ k, req_Header (addHeaders req header) !!! k = req_Header req !!! k ++ header !!! k) ∧
  req_ctx (addHeaders req header) = req_ctx req ∧
  req_Method (addHeaders req header) = req_Method req ∧
  req_URL (addHeaders req header) = req_URL req ∧
  req_Body (addHeaders req header) = req_Body req.
Proof.
  intros Hc. split; [|done]. intros k. unfold addHeaders. cbn [req_Header].
  assert (Hl : Forall (λ kv : string * list string, CanonicalMIMEHeaderKey kv.1 = kv.1)
                 (map_to_list header)).
  { apply Forall_forall. intros [k' v'] Hin. apply elem_of_map_to_list in Hin.
    apply Hc. by eexists. }
  assert (Heq : ∀ l m, Forall (λ kv : string * list string,
                                 CanonicalMIMEHeaderKey kv.1 = kv.1) l →
            foldl (λ acc kv,
                     foldl (λ acc' value,
                              Values_Add (CanonicalMIMEHeaderKey kv.1) value acc') acc kv.2)
                  m l = add_entries l m).
  { clear. unfold add_entries. induction l as [|kv l IH]; intros m Hf; [done|].
    apply Forall_cons in Hf as [Hk Hf]. cbn [foldl]. rewrite Hk. by apply IH. }
  rewrite Heq by done.
  change (add_entries (map_to_list header) (req_Header req))
    with (add_values header (req_Header req)).
  apply add_values_lookup.
Qed.
End RequestFacts.

Lemma Request_carries_query_values_witness :
  let s := testSling None None in
  let reqURL := mkURL "" "" "" "http://api.test/" "" "" in
  let r := foldl (λ p v, QueryValues (Some v) p.1 p.2) (s, emptyStore) testQuerySources in
  wf_sling emptyStore s ∧
  queries_of emptyStore s = [] ∧
  bodyProvider_ s = None ∧
  url_Parse (NetLib := testLib) (rawURL s) = inl reqURL ∧
  ParseQuery (RawQuery reqURL) = (∅, None) ∧
  ∃ merged : Values,
    (∀ k, merged !!! k = (∅ : Values) !!! k ++ mjoin ((λ v : Values, v !!! k) <$> testQuerySources)) ∧
    requestWithContext (H := testLib) context_Background r.1 r.2 =
      match http_NewRequestWithContext (NetLib := testLib) context_Background (method s)
              (URL_String (NetLib := testLib) (set_RawQuery (Values_Encode merged) reqURL)) None with
      | inl req => inl (addHeaders req (headers_of emptyStore s))
      | inr err => inr err
      end.
Proof.
  intros s reqURL r.
  split; [apply wf_sling_testSling|]. split; [reflexivity|]. split; [reflexivity|].
  split; [reflexivity|]. split; [reflexivity|].
  apply (Request_carries_query_values (H := testLib) context_Background s emptyStore
           testQuerySources reqURL ∅); [apply wf_sling_testSling | reflexivity..].
Defined.

Lemma addHeaders_appends_witness :
  let header : gmap string (list string) := {["Accept" := ["a"]]} in
  let req := testRequest context_Background in
  (∀ k, is_Some (header !! k) → CanonicalMIMEHeaderKey k = k) ∧
  ∀ k, req_Header (addHeaders req header) !!! k = req_Header req !!! k ++ header !!! k.
Proof.
  intros header req.
  assert (Hc : ∀ k, is_Some (header !! k) → CanonicalMIMEHeaderKey k = k).
  { intros k [v Hv]. apply lookup_singleton_Some in Hv as [<- _]. reflexivity. }
  split; [exact Hc|].
  exact (proj1 (addHeaders_appends req header Hc)).
Defined.

(** ** Clones whose header slices are full *)

Section AppendOne.
Context {A : Type} (zero : A).

(** Appending one element to a slice leaves a slice it cannot share a
    cell with as it is, and the result shares nothing with it. *)
Lemma append_one_frame (st : list (list A)) (s t : slice) (v : A) :
  wf_slice st s → wf_slice st t → separate s t ∨ full s →
  elems (append zero st s [v]).2 t = elems st t ∧
  separate (append zero st s [v]).1 t.
Proof.
  intros Hs Ht [Hsep|Hfull].
  - by destruct (append_frame zero st s t [v] Hs Ht Hsep) as (? & _ & ?).
  - unfold append, full in *. cbn [length].
    destruct (Nat.leb_spec (s_len s + 1) (s_cap s)); [lia|]. cbn [fst snd].
    destruct Ht as [Hlen [Hz|[Hin Hcap]]].
    + split; [|by right; left]. unfold elems.
      rewrite (proj1 (Nat.le_0_r (s_len t))) by lia. by rewrite !take_0.
    + split; [|right; right; cbn [s_arr]; lia].
      unfold elems. by rewrite array_of_app_old.
Qed.

Lemma append_one_full_or_fresh (st : list (list A)) (s t : slice) (v : A) :
  wf_slice st t → separate s t ∨ (full s ∧ full t) →
  wf_slice st s →
  separate (append zero st s [v]).1 t ∨ (full (append zero st s [v]).1 ∧ full t).
Proof.
  intros Ht Hor Hs. left.
  apply (append_one_frame st s t v Hs Ht). destruct Hor as [?|[? _]]; auto.
Qed.
End AppendOne.

Lemma headers_apart_sym h h' : headers_apart h h' → headers_apart h' h.
Proof.
  intros Ha k k' s s' Hs Hs'. destruct (Ha k' k s' s Hs' Hs) as [?|[? ?]].
  - left. by apply separate_sym.
  - by right.
Qed.

(** [h.Add] and [h.Set] leave the values of a header map that is apart
    from [h] as they are, and the two stay apart. *)
Lemma Header_Add_apart key value h h' st :
  wf_header st h → wf_header st h' → headers_apart h h' →
  header_values (Header_Add key value h st).2 h' = header_values st h' ∧
  headers_apart (Header_Add key value h st).1 h'.
Proof.
  intros Hh Hh' Ha. rewrite Header_Add_eq. cbn [fst snd].
  set (k := CanonicalMIMEHeaderKey key). set (old := default nil_slice (h !! k)).
  pose proof (wf_header_lookup st h k Hh) as Hold. fold old in Hold.
  assert (Hrel : ∀ k' s', h' !! k' = Some s' → separate old s' ∨ (full old ∧ full s')).
  { intros k' s' Hs'. subst old. destruct (h !! k) as [o|] eqn:Eo; [by eapply Ha|].
    left. by left. }
  split.
  - apply map_fmap_ext. intros k' s' Hs'.
    apply (append_one_frame "" st old s' value Hold); [by eapply (proj1 Hh')|].
    destruct (Hrel k' s' Hs') as [?|[? _]]; auto.
  - intros k1 k' s s' Hs Hs'. destruct (decide (k = k1)) as [<-|Hne].
    + rewrite lookup_insert_eq in Hs. injection Hs as <-.
      apply append_one_full_or_fresh; [by eapply (proj1 Hh') | by eapply Hrel | done].
    + rewrite lookup_insert_ne in Hs by done. by eapply Ha.
Qed.

Lemma Header_Set_apart key value h h' st :
  wf_header st h → wf_header st h' → headers_apart h h' →
  header_values (Header_Set key value h st).2 h' = header_values st h' ∧
  headers_apart (Header_Set key value h st).1 h'.
Proof.
  intros Hh Hh' Ha.
  destruct (Header_Set_values key value h st Hh) as (_ & _ & Hfr).
  split; [by apply Hfr|]. unfold Header_Set.
  destruct (slice_literal_fresh st [value]) as (_ & _ & Hsep).
  destruct (slice_literal st [value]) as [vs st']. cbn [fst snd] in *.
  intros k1 k' s s' Hs Hs'.
  destruct (decide (CanonicalMIMEHeaderKey key = k1)) as [<-|Hne].
  - rewrite lookup_insert_eq in Hs. injection Hs as <-. left.
    by apply Hsep, (proj1 Hh' k').
  - rewrite lookup_insert_ne in Hs by done. by eapply Ha.
Qed.

Lemma do_call_total c s st k :
  wf_sling st s →
  headers_of (do_call c s st).2 (do_call c s st).1 !!! k =
    called k (headers_of st s !!! k) c.
Proof. destruct c; [apply Add_total | apply Set_total]. Qed.

Lemma do_call_keeps c s st : wf_sling st s → keeps_builders s st (do_call c s st).
Proof. destruct c; [apply Add_keeps | apply Set_keeps]. Qed.

Lemma do_call_apart c s t st :
  wf_sling st s → wf_sling st t → headers_apart (header s) (header t) →
  headers_of (do_call c s st).2 t = headers_of st t ∧
  headers_apart (header (do_call c s st).1) (header t).
Proof.
  intros [Hs _] [Ht _] Ha. destruct c as [key value|key value]; cbn [do_call].
  - rewrite Add_eq. unfold headers_of. cbn [fst snd strings header set_header].
    by apply Header_Add_apart.
  - rewrite Set_eq. unfold headers_of. cbn [fst snd strings header set_header].
    by apply Header_Set_apart.
Qed.

Lemma called_cons k cur c cs : foldl (called k) cur (c :: cs) = foldl (called k) (called k cur c) cs.
Proof. reflexivity. Qed.

Lemma mutate_header_safe p m :
  headers_safe p →
  headers_safe (mutate_header p m) ∧
  ∀ k,
    headers_of (mutate_header p m).2 (mutate_header p m).1.1 !!! k =
      foldl (called k) (headers_of p.2 p.1.1 !!! k) (parent_calls [m]) ∧
    headers_of (mutate_header p m).2 (mutate_header p m).1.2 !!! k =
      foldl (called k) (headers_of p.2 p.1.2 !!! k) (clone_calls [m]).
Proof.
  destruct p as [[b c] st]. intros (Hb & Hc & Ha). cbn [fst snd] in *.
  destruct m as [call|call]; cbn [mutate_header fst snd parent_calls clone_calls omap
                                    list_omap foldl].
  - destruct (do_call_keeps call b st Hb) as (Hw & _ & _ & Hot & _).
    destruct (do_call_apart call b c st Hb Hc Ha) as [Hfr Ha'].
    split; [split; [done | split; [by apply Hot | done]]|].
    intros k. split; [by apply do_call_total | by rewrite Hfr].
  - destruct (do_call_keeps call c st Hc) as (Hw & _ & _ & Hot & _).
    destruct (do_call_apart call c b st Hc Hb (headers_apart_sym _ _ Ha)) as [Hfr Ha'].
    split; [split; [by apply Hot | split; [done | by apply headers_apart_sym]]|].
    intros k. split; [by rewrite Hfr | by apply do_call_total].
Qed.

Lemma parent_calls_cons m ms : parent_calls (m :: ms) = parent_calls [m] ++ parent_calls ms.
Proof. by destruct m. Qed.

Lemma clone_calls_cons m ms : clone_calls (m :: ms) = clone_calls [m] ++ clone_calls ms.
Proof. by destruct m. Qed.

Lemma mutations_header_safe ms p :
  headers_safe p →
  ∀ k,
    headers_of (foldl mutate_header p ms).2 (foldl mutate_header p ms).1.1 !!! k =
      foldl (called k) (headers_of p.2 p.1.1 !!! k) (parent_calls ms) ∧
    headers_of (foldl mutate_header p ms).2 (foldl mutate_header p ms).1.2 !!! k =
      foldl (called k) (headers_of p.2 p.1.2 !!! k) (clone_calls ms).
Proof.
  revert p. induction ms as [|m ms IH]; intros p Hp k; [done|].
  destruct (mutate_header_safe p m Hp) as [Hp' Hv].
  destruct (IH _ Hp' k) as [I1 I2]. destruct (Hv k) as [H1 H2].
  cbn [foldl]. rewrite I1, I2, H1, H2.
  rewrite (parent_calls_cons m ms), (clone_calls_cons m ms), !foldl_app.
  done.
Qed.

(** X19. if, when a builder is cloned, none of its
    header keys holds its values in an array with spare capacity (as
    after [Set], or after one, two or four calls of [Add] on a new key),
    then the headers of the builder and of the clone are independent:
    after any calls of [Add] and [Set] on the two, in any order, each
    holds under every key what its own calls make of the values the
    builder had when it was cloned. *)
Theorem clone_headers_independent_when_full (s : Sling) (st : Store)
  (ms : list header_mutation) :
  wf_sling st s →
  (∀ k sl, header s !! k = Some sl → full sl) →
  let p := foldl mutate_header (s, (Sling_New s st).1, (Sling_New s st).2) ms in
  ∀ k,
    headers_of p.2 p.1.1 !!! k = foldl (called k) (headers_of st s !!! k) (parent_calls ms) ∧
    headers_of p.2 p.1.2 !!! k = foldl (called k) (headers_of st s !!! k) (clone_calls ms).
Proof.
  intros Hs Hfull p k.
  destruct (Sling_New_keeps s st Hs) as (Hc & Hg1 & Hg2).
  assert (Hsafe : headers_safe (s, (Sling_New s st).1, (Sling_New s st).2)).
  { split; [by eapply wf_sling_grows|]. split; [done|]. cbn [fst snd].
    rewrite Sling_New_eq. cbn [fst header].
    intros k1 k2 s1 s2 H1 H2. right. split; by eapply Hfull. }
  destruct (mutations_header_safe ms _ Hsafe k) as [H1 H2]. subst p.
  rewrite H1, H2. cbn [fst snd]. rewrite Sling_New_eq. done.
Qed.

Lemma clone_headers_independent_when_full_witness :
  let p0 := Set_ "K" "a" (testSling None None) emptyStore in
  let ms := [HeaderOnParent (CallAdd "K" "d"); HeaderOnClone (CallAdd "k" "e")] in
  let p := foldl mutate_header (p0.1, (Sling_New p0.1 p0.2).1, (Sling_New p0.1 p0.2).2) ms in
  wf_sling p0.2 p0.1 ∧
  (∀ k sl, header p0.1 !! k = Some sl → full sl) ∧
  headers_of p.2 p.1.1 !!! "K" = ["a"; "d"] ∧
  headers_of p.2 p.1.2 !!! "K" = ["a"; "e"].
Proof.
  intros p0 ms p.
  assert (Hw : wf_sling p0.2 p0.1).
  { refine (proj1 (Set_keeps "K" "a" (testSling None None) emptyStore _)).
    split; [apply wf_header_empty | apply wf_nil_slice]. }
  assert (Hfull : ∀ k sl, header p0.1 !! k = Some sl → full sl).
  { intros k sl. subst p0. rewrite Set_eq. cbn [fst header set_header].
    unfold Header_Set. cbn [slice_literal fst].
    destruct (decide (CanonicalMIMEHeaderKey "K" = k)) as [<-|Hne].
    - rewrite lookup_insert_eq. by intros [= <-].
    - rewrite lookup_insert_ne by done. cbn [testSling header].
      by rewrite lookup_empty. }
  split; [exact Hw|]. split; [exact Hfull|].
  exact (clone_headers_independent_when_full p0.1 p0.2 ms Hw Hfull "K").
Defined.
